(** * The dice game of "The Goal": a shallow embedding of [dice_game.py]

    The simulator is a Python object holding a list of integer buffers and a
    seeded pseudo-random generator.  Python integers are unbounded, so they
    are [Z]; the buffer list is a [list Z] read and written by index, and an
    index out of range raises [IndexError] as in Python.  The methods mutate
    the object and may raise, so they live in a state-and-exception monad
    over the object's fields: what was mutated before a [raise] stays
    mutated.

    The summary record carries its floats idealised: [statistics.mean] and
    the ratios as exact rationals ([Q]), [statistics.pstdev] as the real
    square root of the exact population variance ([R]), [float("nan")] as
    [None].  That layer says which statistic a field holds, not how it is
    rounded or whether a value fits a float.  Where the float decides what
    happens, in the cycle time, the numbers are Python's: [int] or binary64
    [float], with correct rounding and [OverflowError] ([pynum],
    [binary64], [py_mean], [py_truediv] below). *)

From Stdlib Require Import ZArith QArith Qreals Reals Lia Lra String List.
From stdpp Require Import base list strings pretty.

Open Scope Z_scope.

(** ** Exceptions and the state-and-exception monad *)

Inductive exn : Type :=
| ValueError (msg : string)
| IndexError
| StatisticsError (msg : string)
| ZeroDivisionError (msg : string)
| OverflowError (msg : string).

Inductive outcome (A : Type) : Type :=
| Ok (a : A)
| Raise (e : exn).
Arguments Ok {A} a.
Arguments Raise {A} e.

Definition is_ok {A} (o : outcome A) : bool :=
  match o with Ok _ => true | Raise _ => false end.

Definition is_value_error {A} (o : outcome A) : bool :=
  match o with Raise (ValueError _) => true | _ => false end.

(** Code that raises but touches no object: the statistics helpers, the
    constructor, the aggregation over finished summaries. *)
#[export] Instance outcome_ret : MRet outcome := fun A a => Ok a.
#[export] Instance outcome_bind : MBind outcome := fun A B k o =>
  match o with Ok a => k a | Raise e => Raise e end.

(** Methods of an object with fields [St]. *)
Definition M (St A : Type) : Type := St -> outcome A * St.

#[export] Instance M_ret {St} : MRet (M St) := fun A a s => (Ok a, s).
#[export] Instance M_bind {St} : MBind (M St) := fun A B k m s =>
  match m s with
  | (Ok a, s') => k a s'
  | (Raise e, s') => (Raise e, s')
  end.

Definition raise {St A} (e : exn) : M St A := fun s => (Raise e, s).
Definition gets {St A} (f : St -> A) : M St A := fun s => (Ok (f s), s).
Definition lift {St A} (o : outcome A) : M St A := fun s => (o, s).

(** ** The random capacity source

    [random.Random] is Python's library generator, not code of the
    repository: it is an interface here.  [rng_seed n] is [random.Random(n)]
    for an integer [n]; [rng_randint a b] is one call of [randint(a, b)] with
    [a <= b], giving the draw and the generator's next state. *)

Class RandomSource : Type := {
  rng_state : Type;
  rng_seed : Z -> rng_state;
  rng_randint : Z -> Z -> rng_state -> Z * rng_state
}.

(** What the library promises of [randint(a, b)]: the draw lies in [[a, b]]. *)
Definition randint_in_range (RS : RandomSource) : Prop :=
  forall a b s, a <= b -> a <= fst (rng_randint a b s) <= b.

(** A generator that replays a script: draw [k] of [randint(a, b)] is
    [a + x mod (b - a + 1)] for the [k]-th script entry [x], and [a] once
    the script is used up.  Every sequence of rolls in range is the output
    of one such script. *)
Definition replay_randint (a b : Z) (s : list Z) : Z * list Z :=
  match s with
  | [] => (a, [])
  | x :: s' => (a + x mod (b - a + 1), s')
  end.

Definition replay (script : Z -> list Z) : RandomSource :=
  {| rng_state := list Z; rng_seed := script; rng_randint := replay_randint |}.

(** A linear congruential generator, seeded by the integer itself. *)
Definition lcg_randint (a b : Z) (s : Z) : Z * Z :=
  let s' := (1103515245 * s + 12345) mod 2147483648 in
  (a + s' mod (b - a + 1), s').

Definition lcg : RandomSource :=
  {| rng_state := Z; rng_seed := fun n => n mod 2147483648; rng_randint := lcg_randint |}.

(** ** Records of the source *)

Record StageOutcome : Type := {
  stage : Z;
  roll : Z;
  available : Z;
  processed : Z;
  buffer_after : Z;
  starved : bool;
  blocked : bool
}.

Record RoundOutcome : Type := {
  round_index : Z;
  throughput : Z;
  wip : Z;
  stage_outcomes : list StageOutcome
}.

Record SimulationSummary : Type := {
  rounds : list RoundOutcome;
  avg_throughput : Q;
  throughput_stdev : R;
  avg_wip : Q;
  total_throughput : Z;
  stage_starved_ratio : list Q;
  stage_blocked_ratio : list Q
}.

(** ** Library functions used by the source *)

(** The builtin [sum] over integers. *)
Definition sumZ (xs : list Z) : Z := foldr Z.add 0 xs.

Definition sumQ (xs : list Q) : Q := foldr Qplus 0%Q xs.

Definition sumR (xs : list R) : R := foldr Rplus 0%R xs.

Definition lenQ {A} (xs : list A) : Q := inject_Z (Z.of_nat (length xs)).

(** [statistics.mean], idealised: the exact mean, neither rounded to a
    float nor refused as too large for one ([py_mean] is the function with
    its rounding and its [OverflowError]); [StatisticsError] on no data. *)
Definition mean (xs : list Q) : outcome Q :=
  match xs with
  | [] => Raise (StatisticsError "mean requires at least one data point")
  | _ => Ok (sumQ xs / lenQ xs)%Q
  end.

(** [statistics.pvariance]: the library sums the squared deviations from the
    mean exactly and divides by the number of data points. *)
Definition pvariance (xs : list Q) : outcome Q :=
  c ← mean xs;
  Ok (sumQ (map (fun x => (x - c) * (x - c))%Q xs) / lenQ xs)%Q.

(** [statistics.pstdev]: the square root of [pvariance]. *)
Definition pstdev (xs : list Q) : outcome R :=
  v ← pvariance xs;
  Ok (sqrt (Q2R v)).

Definition intsQ (xs : list Z) : list Q := map inject_Z xs.

(** [range(n)]: empty when [n <= 0]. *)
Definition range (n : Z) : list Z := map Z.of_nat (seq 0 (Z.to_nat n)).

(** Python list indexing: a negative index counts from the end, anything
    outside [[-len, len)] raises [IndexError]. *)
Definition index_of (len : nat) (i : Z) : outcome nat :=
  if (0 <=? i) && (i <? Z.of_nat len) then Ok (Z.to_nat i)
  else if (i <? 0) && (- Z.of_nat len <=? i) then Ok (Z.to_nat (Z.of_nat len + i))
  else Raise IndexError.

Definition getitem {A} (l : list A) (i : Z) : outcome A :=
  k ← index_of (length l) i;
  match l !! k with
  | Some x => Ok x
  | None => Raise IndexError
  end.

Definition setitem {A} (l : list A) (i : Z) (v : A) : outcome (list A) :=
  k ← index_of (length l) i;
  Ok (<[k:=v]> l).

(** ** The simulator object *)

Section Game.
Context {RS : RandomSource}.

Record DiceGame : Type := {
  stages : Z;
  die_sides : Z;
  release_rate : Z;
  buffers : list Z;
  rng : rng_state
}.

Definition set_buffers (b : list Z) (g : DiceGame) : DiceGame :=
  {| stages := stages g; die_sides := die_sides g;
     release_rate := release_rate g; buffers := b; rng := rng g |}.

Definition set_rng (s : rng_state) (g : DiceGame) : DiceGame :=
  {| stages := stages g; die_sides := die_sides g;
     release_rate := release_rate g; buffers := buffers g; rng := s |}.

(** [DiceGame.__init__].  [seed = None] seeds the generator from the
    operating system; [entropy] is what the system hands out then. *)
Definition __init__ (stages die_sides release_rate initial_buffer : Z)
    (seed : option Z) (entropy : Z) : outcome DiceGame :=
  if stages <? 1 then Raise (ValueError "stages must be >= 1")
  else if die_sides <? 2 then Raise (ValueError "die_sides must be >= 2")
  else if release_rate <? 0 then Raise (ValueError "release_rate must be >= 0")
  else if initial_buffer <? 0 then Raise (ValueError "initial_buffer must be >= 0")
  else Ok {| stages := stages; die_sides := die_sides;
             release_rate := release_rate;
             buffers := map (fun _ => initial_buffer) (range stages);
             rng := rng_seed (match seed with Some n => n | None => entropy end) |}.

(** [self.buffers[i]] and [self.buffers[i] = v]. *)
Definition buffer_get (i : Z) : M DiceGame Z :=
  fun g => (getitem (buffers g) i, g).

Definition buffer_set (i : Z) (v : Z) : M DiceGame unit :=
  fun g => match setitem (buffers g) i v with
           | Ok b => (Ok tt, set_buffers b g)
           | Raise e => (Raise e, g)
           end.

(** [self.rng.randint(a, b)]: the library raises [ValueError] on an empty
    range and otherwise draws once, advancing the generator. *)
Definition randint (a b : Z) : M DiceGame Z :=
  fun g => if b <? a then (Raise (ValueError "empty range for randrange()"), g)
           else let (r, s) := rng_randint a b (rng g) in (Ok r, set_rng s g).

(** The body of [for index in range(self.stages)] in [play_round], with the
    locals [incoming] and [stage_outcomes] carried along. *)
Fixpoint play_stages (indices : list Z) (incoming : Z)
    (stage_outcomes : list StageOutcome) : M DiceGame (Z * list StageOutcome) :=
  match indices with
  | [] => mret (incoming, stage_outcomes)
  | index :: indices =>
      b ← buffer_get index;
      let available := b + incoming in
      sides ← gets die_sides;
      roll ← randint 1 sides;
      let processed := Z.min available roll in
      let buffer_after := available - processed in
      let starved := available <? roll in
      let blocked := 0 <? buffer_after in
      let stage_outcomes :=
        stage_outcomes ++
        [{| stage := index; roll := roll; available := available;
            processed := processed; buffer_after := buffer_after;
            starved := starved; blocked := blocked |}] in
      _ ← buffer_set index buffer_after;
      play_stages indices processed stage_outcomes
  end.

(** [DiceGame.play_round]. *)
Definition play_round (round_index : Z) : M DiceGame RoundOutcome :=
  b ← buffer_get 0;
  release ← gets release_rate;
  _ ← buffer_set 0 (b + release);
  n ← gets stages;
  '(incoming, stage_outcomes) ← play_stages (range n) 0 [];
  let throughput := incoming in
  bufs ← gets buffers;
  let wip := sumZ bufs in
  mret {| round_index := round_index; throughput := throughput; wip := wip;
          stage_outcomes := stage_outcomes |}.

(** [for i in range(rounds): history.append(self.play_round(i + 1))]. *)
Fixpoint play_rounds (indices : list Z) (history : list RoundOutcome)
    : M DiceGame (list RoundOutcome) :=
  match indices with
  | [] => mret history
  | i :: indices =>
      r ← play_round (i + 1);
      play_rounds indices (history ++ [r])
  end.

(** [counts[i] += 1]. *)
Definition bump (counts : list Z) (i : Z) : outcome (list Z) :=
  c ← getitem counts i;
  setitem counts i (c + 1).

(** The two nested counting loops of [simulate]. *)
Fixpoint count_stages (outs : list StageOutcome) (counts : list Z * list Z)
    : outcome (list Z * list Z) :=
  match outs with
  | [] => Ok counts
  | so :: outs =>
      starved_counts ←
        (if starved so then bump (fst counts) (stage so) else Ok (fst counts));
      blocked_counts ←
        (if blocked so then bump (snd counts) (stage so) else Ok (snd counts));
      count_stages outs (starved_counts, blocked_counts)
  end.

Fixpoint count_rounds (history : list RoundOutcome) (counts : list Z * list Z)
    : outcome (list Z * list Z) :=
  match history with
  | [] => Ok counts
  | round_outcome :: history =>
      counts ← count_stages (stage_outcomes round_outcome) counts;
      count_rounds history counts
  end.

(** The aggregation half of [simulate] (from [throughput_series] on), as a
    function of the object's stage count, [rounds] and the history.  The
    source reaches it only past the [rounds < 1] guard, so the division by
    [float(rounds)] never sees zero. *)
Definition summarize (n : Z) (rounds : Z) (history : list RoundOutcome)
    : outcome SimulationSummary :=
  let throughput_series := map throughput history in
  let wip_series := map wip history in
  avg_throughput ← mean (intsQ throughput_series);
  throughput_stdev ←
    (if (1 <? length throughput_series)%nat
     then pstdev (intsQ throughput_series) else Ok 0%R);
  avg_wip ← mean (intsQ wip_series);
  let total := sumZ throughput_series in
  let starved_counts := map (fun _ => 0) (range n) in
  let blocked_counts := map (fun _ => 0) (range n) in
  '(starved_counts, blocked_counts) ←
    count_rounds history (starved_counts, blocked_counts);
  let rounds_float := inject_Z rounds in
  let starved_ratio := map (fun c => inject_Z c / rounds_float)%Q starved_counts in
  let blocked_ratio := map (fun c => inject_Z c / rounds_float)%Q blocked_counts in
  Ok {| rounds := history; avg_throughput := avg_throughput;
        throughput_stdev := throughput_stdev; avg_wip := avg_wip;
        total_throughput := total;
        stage_starved_ratio := starved_ratio;
        stage_blocked_ratio := blocked_ratio |}.

(** [DiceGame.simulate]. *)
Definition simulate (rounds : Z) : M DiceGame SimulationSummary :=
  if rounds <? 1 then raise (ValueError "rounds must be >= 1")
  else
    history ← play_rounds (range rounds) [];
    n ← gets stages;
    lift (summarize n rounds history).

(** ** Replications: the loop of [main] and the numbers of [_print_summary] *)

Record Args : Type := {
  arg_stages : Z;
  arg_rounds : Z;
  arg_die_sides : Z;
  arg_release_rate : Z;
  arg_initial_buffer : Z;
  arg_seed : option Z;
  arg_replications : Z
}.

(** [for rep in range(args.replications)]: a fresh game per replication,
    seeded [args.seed + rep] when a seed was given.  [entropy rep] is the
    system's seed for the [rep]-th construction of an unseeded run. *)
Fixpoint run_replications (args : Args) (entropy : Z -> Z) (reps : list Z)
    (summaries : list SimulationSummary) : outcome (list SimulationSummary) :=
  match reps with
  | [] => Ok summaries
  | rep :: reps =>
      let seed := match arg_seed args with
                  | Some base => Some (base + rep)
                  | None => None
                  end in
      game ← __init__ (arg_stages args) (arg_die_sides args)
               (arg_release_rate args) (arg_initial_buffer args)
               seed (entropy rep);
      summary ← fst (simulate (arg_rounds args) game);
      run_replications args entropy reps (summaries ++ [summary])
  end.

End Game.

(** The numbers [_print_summary] computes before it prints them: the
    locals up to [cycle_time], idealised; [cycle_time = None] is
    [float("nan")].  The print statements that follow, with the mean of the
    intra-run deviations and the per-stage means they compute on the way,
    are not part of it. *)
Record ReplicationSet : Type := {
  reps : Z;
  rep_rounds : Z;
  overall_avg_throughput : Q;
  overall_avg_wip : Q;
  overall_total : Q;
  throughput_sd_between : R;
  cycle_time : option Q
}.

(** The guarded division of [_print_summary], idealised: an exact quotient
    ([cycle_time_computation] is the division as Python performs it). *)
Definition little_cycle_time (overall_avg_wip overall_avg_throughput : Q) : option Q :=
  if Qlt_le_dec 0 overall_avg_throughput
  then Some (overall_avg_wip / overall_avg_throughput)%Q
  else None.

Definition _print_summary (summaries : list SimulationSummary) : outcome ReplicationSet :=
  let reps := Z.of_nat (length summaries) in
  first ← getitem summaries 0;
  let rounds := Z.of_nat (length (rounds first)) in
  let avg_throughputs := map avg_throughput summaries in
  let avg_wips := map avg_wip summaries in
  let totals := map total_throughput summaries in
  overall_avg_throughput ← mean avg_throughputs;
  overall_avg_wip ← mean avg_wips;
  overall_total ← mean (intsQ totals);
  throughput_sd_between ← (if 1 <? reps then pstdev avg_throughputs else Ok 0%R);
  let cycle_time := little_cycle_time overall_avg_wip overall_avg_throughput in
  Ok {| reps := reps; rep_rounds := rounds;
        overall_avg_throughput := overall_avg_throughput;
        overall_avg_wip := overall_avg_wip; overall_total := overall_total;
        throughput_sd_between := throughput_sd_between;
        cycle_time := cycle_time |}.

(** [main] after argument parsing. *)
Definition main {RS : RandomSource} (args : Args) (entropy : Z -> Z) : outcome ReplicationSet :=
  summaries ← run_replications args entropy (range (arg_replications args)) [];
  _print_summary summaries.

(** ** The round as a function of the buffers and the draws

    The spec's reading of a round: one stage's outcome from its buffer, what
    came in and its roll; then the chain of stages, each handing its
    [processed] to the next. *)

Definition stage_step (index b incoming r : Z) : StageOutcome :=
  let available := b + incoming in
  let processed := Z.min available r in
  let buffer_after := available - processed in
  {| stage := index; roll := r; available := available;
     processed := processed; buffer_after := buffer_after;
     starved := available <? r; blocked := 0 <? buffer_after |}.

Fixpoint chain (index : Z) (bufs rolls : list Z) (incoming : Z) : list StageOutcome :=
  match bufs, rolls with
  | b :: bufs, r :: rolls =>
      let so := stage_step index b incoming r in
      so :: chain (index + 1) bufs rolls (processed so)
  | _, _ => []
  end.

(** What leaves the chain: the last stage's [processed]. *)
Definition last_processed (incoming : Z) (outs : list StageOutcome) : Z :=
  match last outs with
  | Some so => processed so
  | None => incoming
  end.

(** [release_rate] added to the first buffer. *)
Definition released (release : Z) (bufs : list Z) : list Z :=
  match bufs with
  | [] => []
  | b :: bufs => (b + release) :: bufs
  end.

Section Draws.
Context {RS : RandomSource}.

(** [n] successive calls of [randint(a, b)]. *)
Fixpoint draws (n : nat) (a b : Z) (s : rng_state) : list Z * rng_state :=
  match n with
  | O => ([], s)
  | S n =>
      let (r, s1) := rng_randint a b s in
      let (rs, s2) := draws n a b s1 in
      (r :: rs, s2)
  end.

(** The rolls of the round that starts in [g], its stage outcomes, its
    record and the object after it. *)
Definition round_rolls (g : DiceGame) : list Z :=
  fst (draws (length (buffers g)) 1 (die_sides g) (rng g)).

Definition round_outs (g : DiceGame) : list StageOutcome :=
  chain 0 (released (release_rate g) (buffers g)) (round_rolls g) 0.

Definition round_next (g : DiceGame) : DiceGame :=
  set_rng (snd (draws (length (buffers g)) 1 (die_sides g) (rng g)))
    (set_buffers (map buffer_after (round_outs g)) g).

Definition round_record (round_index : Z) (g : DiceGame) : RoundOutcome :=
  {| round_index := round_index;
     throughput := last_processed 0 (round_outs g);
     wip := sumZ (map buffer_after (round_outs g));
     stage_outcomes := round_outs g |}.

(** The object after [k] rounds, and the history of rounds [i+1 .. i+k]. *)
Fixpoint after_rounds (k : nat) (g : DiceGame) : DiceGame :=
  match k with
  | O => g
  | S k => after_rounds k (round_next g)
  end.

Fixpoint history_from (i : Z) (k : nat) (g : DiceGame) : list RoundOutcome :=
  match k with
  | O => []
  | S k => round_record (i + 1) g :: history_from (i + 1) k (round_next g)
  end.

(** The invariant of a constructed object: the shape [play_round] relies
    on, and the sign conditions the constructor checks. *)
Definition shaped (g : DiceGame) : Prop :=
  1 <= stages g /\ 1 <= die_sides g /\ length (buffers g) = Z.to_nat (stages g).

Definition wf (g : DiceGame) : Prop :=
  shaped g /\ 2 <= die_sides g /\ 0 <= release_rate g /\ Forall (Z.le 0) (buffers g).

End Draws.

(** ** Vocabulary of the statements *)

(** A stage outcome is consistent when its derived fields follow from
    [available] and [roll] the way [play_round] computes them. *)
Definition consistent (so : StageOutcome) : Prop :=
  processed so = Z.min (available so) (roll so) /\
  buffer_after so = available so - processed so /\
  starved so = (available so <? roll so) /\
  blocked so = (0 <? buffer_after so).

(** A stage outcome within bounds: it processed between nothing and what
    it had, and kept the rest. *)
Definition within_bounds (so : StageOutcome) : Prop :=
  0 <= processed so <= available so /\
  buffer_after so = available so - processed so /\
  0 <= buffer_after so.

(** A saturated stage outcome: the roll was the limit, not the material. *)
Definition saturated (so : StageOutcome) : Prop :=
  processed so = roll so /\ starved so = false /\ blocked so = true.

(** A stage outcome whose stage index is a position below [n]. *)
Definition stage_below (n : nat) (so : StageOutcome) : Prop :=
  exists i, stage so = Z.of_nat i /\ (i < n)%nat.

(** The standard deviation field as [simulate] sets it. *)
Definition stdev_field (series : list Z) : outcome R :=
  if (1 <? length series)%nat then pstdev (intsQ series) else Ok 0%R.

(** The constructor's preconditions. *)
Definition valid_config (nstages sides release initial : Z) : Prop :=
  1 <= nstages /\ 2 <= sides /\ 0 <= release /\ 0 <= initial.

(** The seed [main] gives replication [rep] (0-based). *)
Definition replication_seed (args : Args) (rep : Z) : option Z :=
  match arg_seed args with
  | Some base => Some (base + rep)
  | None => None
  end.

Definition valid_args (args : Args) : Prop :=
  valid_config (arg_stages args) (arg_die_sides args)
    (arg_release_rate args) (arg_initial_buffer args) /\
  1 <= arg_rounds args.

(** The spec's population standard deviation of a series, over the reals:
    the square root of the mean (sum over the count [N]) of the squared
    deviations from the mean. *)
Definition population_stdev (xs : list Z) : R :=
  let n := INR (length xs) in
  let mu := (sumR (map IZR xs) / n)%R in
  sqrt (sumR (map (fun x => (IZR x - mu) * (IZR x - mu))%R xs) / n).

(** The sample variant, which divides by [N - 1]. *)
Definition sample_stdev (xs : list Z) : R :=
  let n := INR (length xs) in
  let mu := (sumR (map IZR xs) / n)%R in
  sqrt (sumR (map (fun x => (IZR x - mu) * (IZR x - mu))%R xs) / (n - 1)).

(** A summary produced by [simulate] on a constructed object. *)
Definition simulated (s : SimulationSummary) : Prop :=
  exists (RS : RandomSource) (g g' : @DiceGame RS) (nrounds : Z),
    randint_in_range RS /\ wf g /\ simulate nrounds g = (Ok s, g').

(** ** Concrete runs used to instantiate the theorems *)

Definition demo_game : @DiceGame lcg :=
  {| stages := 3; die_sides := 6; release_rate := 4; buffers := [3; 3; 3];
     rng := rng_seed 7 |}.

Definition demo_args : Args :=
  {| arg_stages := 5; arg_rounds := 20; arg_die_sides := 6;
     arg_release_rate := 4; arg_initial_buffer := 3;
     arg_seed := Some 100; arg_replications := 3 |}.

(** A script whose rolls are 1, 6, 1 in each of five rounds. *)
Definition shrink_script (_ : Z) : list Z :=
  [0; 5; 0; 0; 5; 0; 0; 5; 0; 0; 5; 0; 0; 5; 0].

Definition shrink_start : @DiceGame (replay shrink_script) :=
  @Build_DiceGame (replay shrink_script) 3 6 100 [1000; 1000; 1000] (shrink_script 0).

Definition shrink_end : @DiceGame (replay shrink_script) :=
  @Build_DiceGame (replay shrink_script) 3 6 100 [1495; 975; 1025] [].

Definition synthetic_round (i t : Z) : RoundOutcome :=
  {| round_index := i; throughput := t; wip := 0; stage_outcomes := [] |}.

Definition synthetic_history : list RoundOutcome :=
  [synthetic_round 1 2; synthetic_round 2 4; synthetic_round 3 4; synthetic_round 4 6].

(** ** Vocabulary of the further properties *)

(** How many outcomes of [outs] are for stage [i] with [flag] set: what one
    round adds to [starved_counts[i]] or [blocked_counts[i]]. *)
Definition count_flag (flag : StageOutcome -> bool) (i : Z) (outs : list StageOutcome) : Z :=
  sumZ (map (fun so => if (stage so =? i) && flag so then 1 else 0) outs).

(** The same over a history: the rounds in which stage [i] had [flag]. *)
Definition count_rounds_flag (flag : StageOutcome -> bool) (i : Z)
    (history : list RoundOutcome) : Z :=
  sumZ (map (fun r => count_flag flag i (stage_outcomes r)) history).

(** An idle line: nothing released and nothing in the buffers. *)
Definition idle {RS : RandomSource} (g : DiceGame) : Prop :=
  release_rate g = 0 /\ Forall (fun b => b = 0) (buffers g).

(** A stage outcome with nothing to work on. *)
Definition idle_outcome (so : StageOutcome) : Prop :=
  available so = 0 /\ processed so = 0 /\ buffer_after so = 0 /\
  starved so = true /\ blocked so = false.

(** The spec's first scenario: two stages, no release, empty buffers. *)
Definition idle_game : @DiceGame lcg :=
  {| stages := 2; die_sides := 6; release_rate := 0; buffers := [0; 0];
     rng := rng_seed 1 |}.

(** ** The repository lister ([list_github_repos.py])

    The network is outside the program: [server t url] is what the [t]-th
    request of a run gets for [url] once [urlopen], [decode] and
    [json.loads] are through, namely the decoded list (the function is
    annotated to return a list of repository dictionaries; their content is
    not looked at here), an [HTTPError], or any other exception with its
    [str].  [sys.exit] ends the program, so a call either returns or exits
    with what it wrote to stderr.  [while True] need not end: the loop
    takes fuel, and [None] is a loop still running when the fuel is gone. *)

Inductive response (Repo : Type) : Type :=
| Body (data : list Repo)
| HTTPError (code : Z) (reason : string)
| OtherError (msg : string).
Arguments Body {Repo} data.
Arguments HTTPError {Repo} code reason.
Arguments OtherError {Repo} msg.

Inductive exits (A : Type) : Type :=
| Returns (a : A)
| SysExit (stderr : string) (code : Z).
Arguments Returns {A} a.
Arguments SysExit {A} stderr code.

(** The f-string of [fetch_repos]. *)
Definition repos_url (username : string) (page per_page : Z) : string :=
  "https://api.github.com/users/" +:+ username +:+ "/repos?page=" +:+ pretty page
  +:+ "&per_page=" +:+ pretty per_page +:+ "&sort=updated".

Section Lister.
Context {Repo : Type}.
Variable server : nat -> string -> response Repo.

(** [fetch_repos], as request number [t] of the run. *)
Definition fetch_repos (t : nat) (username : string) (page per_page : Z)
    : exits (list Repo) :=
  match server t (repos_url username page per_page) with
  | Body data => Returns data
  | HTTPError code reason =>
      if code =? 404
      then SysExit ("Error: User '" +:+ username +:+ "' not found") 1
      else SysExit ("Error: HTTP " +:+ pretty code +:+ " - " +:+ reason) 1
  | OtherError msg => SysExit ("Error: " +:+ msg) 1
  end.

(** The [while True] of [list_all_repos], with the locals [page] and
    [all_repos] and the count [t] of requests made so far. *)
Fixpoint list_all_repos_loop (fuel : nat) (username : string) (t : nat) (page : Z)
    (all_repos : list Repo) : option (exits (list Repo)) :=
  match fuel with
  | O => None
  | S fuel =>
      match fetch_repos t username page 100 with
      | SysExit err code => Some (SysExit err code)
      | Returns repos =>
          match repos with
          | [] => Some (Returns all_repos)
          | _ :: _ =>
              let all_repos := all_repos ++ repos in
              let page := page + 1 in
              if (length repos <? 100)%nat then Some (Returns all_repos)
              else list_all_repos_loop fuel username (S t) page all_repos
          end
      end
  end.

(** [list_all_repos]. *)
Definition list_all_repos (fuel : nat) (username : string) : option (exits (list Repo)) :=
  list_all_repos_loop fuel username 0 1 [].

(** The server answers the first requests with the full pages [pages]:
    request [j] asks for page [j + 1], a hundred per page, and gets a list
    of at least a hundred. *)
Definition serves_full_pages (username : string) (pages : list (list Repo)) : Prop :=
  forall j p, pages !! j = Some p ->
    server j (repos_url username (Z.of_nat j + 1) 100) = Body p /\
    (100 <= length p)%nat.

End Lister.

(** Two servers for the examples: one with 250 repositories, one that
    never runs out. *)
Definition paged_server (t : nat) (_ : string) : response nat :=
  match t with
  | 0%nat => Body (replicate 100 1%nat)
  | 1%nat => Body (replicate 100 2%nat)
  | 2%nat => Body (replicate 50 3%nat)
  | _ => HTTPError 404 "Not Found"
  end.

Definition endless_server (t : nat) (_ : string) : response nat :=
  Body (replicate 100 t).

Definition failing_server (t : nat) (_ : string) : response nat :=
  match t with
  | 0%nat => Body (replicate 100 1%nat)
  | _ => HTTPError 403 "rate limit exceeded"
  end.

(** ** Python's numbers, for the cycle time

    In the cycle time the float is the point: it is a true division of two
    results of [statistics.mean], and both the division and the conversion
    inside [mean] raise [OverflowError] on values too large for a float.
    Here the numbers are as Python has them.  [statistics.mean] returns an
    [int] when the data are all [int] and the mean is whole, and otherwise
    a [float]: the exact fraction converted by the true division of its
    numerator by its denominator, correctly rounded.  A finite float is
    kept by its exact value (the sign of a zero is not kept). *)

Inductive pyfloat : Type :=
| FFinite (q : Q)
| FInf (negative : bool)
| FNan.

Inductive pynum : Type :=
| PInt (n : Z)
| PFloat (q : Q).

Definition py_value (a : pynum) : Q :=
  match a with
  | PInt n => inject_Z n
  | PFloat q => q
  end.

Definition py_is_int (a : pynum) : bool :=
  match a with
  | PInt _ => true
  | PFloat _ => false
  end.

(** The integer nearest to [n / d], ties to the even one ([0 <= n], [0 < d]). *)
Definition round_half_even (n d : Z) : Z :=
  let q := n / d in
  let r := n mod d in
  if 2 * r <? d then q
  else if d <? 2 * r then q + 1
  else if Z.even q then q else q + 1.

(** [floor (log2 (n / d))] for positive [n] and [d]. *)
Definition ilog2_ratio (n d : Z) : Z :=
  let l := Z.log2 n - Z.log2 d in
  if 0 <=? l
  then (if n <? d * 2 ^ l then l - 1 else l)
  else (if n * 2 ^ (- l) <? d then l - 1 else l).

Definition pow2Q (e : Z) : Q :=
  if 0 <=? e then inject_Z (2 ^ e) else (/ inject_Z (2 ^ (- e)))%Q.

(** IEEE 754 binary64, round to nearest, ties to even: 53 bits of
    significand, exponent of the last bit at least -1074, overflow to
    infinity from [2^1024] on. *)
Definition binary64 (q : Q) : pyfloat :=
  let n := Z.abs (Qnum q) in
  let d := Z.pos (Qden q) in
  if n =? 0 then FFinite 0%Q
  else
    let e := Z.max (ilog2_ratio n d - 52) (-1074) in
    let m := if 0 <=? e then round_half_even n (d * 2 ^ e)
             else round_half_even (n * 2 ^ (- e)) d in
    if 2 ^ 1024 <=? m * 2 ^ e
    then FInf (Qnum q <? 0)
    else FFinite (inject_Z (if Qnum q <? 0 then - m else m) * pow2Q e)%Q.

(** [float(n)] for an [int]. *)
Definition int_to_float (n : Z) : outcome Q :=
  match binary64 (inject_Z n) with
  | FFinite x => Ok x
  | _ => Raise (OverflowError "int too large to convert to float")
  end.

(** [a / b] for two [int]s: correctly rounded, never infinite. *)
Definition int_true_divide (a b : Z) : outcome Q :=
  if b =? 0 then Raise (ZeroDivisionError "division by zero")
  else
    match binary64 (inject_Z a / inject_Z b) with
    | FFinite x => Ok x
    | _ => Raise (OverflowError "integer division result too large for a float")
    end.

Definition to_float (a : pynum) : outcome Q :=
  match a with
  | PInt n => int_to_float n
  | PFloat q => Ok q
  end.

(** [a / b]: the true division of two ints, or, with a float on either
    side, both converted to float, the zero check, and the IEEE division
    (which may overflow to infinity without raising). *)
Definition py_truediv (a b : pynum) : outcome pyfloat :=
  match a, b with
  | PInt x, PInt y => q ← int_true_divide x y; Ok (FFinite q)
  | _, _ =>
      x ← to_float a;
      y ← to_float b;
      if Qeq_bool y 0 then Raise (ZeroDivisionError "float division by zero")
      else Ok (binary64 (x / y))
  end.

(** [a > 0]. *)
Definition py_gt0 (a : pynum) : bool :=
  match a with
  | PInt n => 0 <? n
  | PFloat q => negb (Qle_bool q 0)
  end.

(** [statistics.mean] on ints and floats, with the type it returns. *)
Definition py_mean (data : list pynum) : outcome pynum :=
  match data with
  | [] => Raise (StatisticsError "mean requires at least one data point")
  | _ :: _ =>
      let value := Qred (sumQ (map py_value data) / lenQ data) in
      if forallb py_is_int data && (Z.pos (Qden value) =? 1)
      then Ok (PInt (Qnum value))
      else x ← int_true_divide (Qnum value) (Z.pos (Qden value)); Ok (PFloat x)
  end.

(** What [simulate] stores in [avg_throughput] and [avg_wip], as Python
    computes them from the history. *)
Definition py_avg_throughput (s : SimulationSummary) : outcome pynum :=
  py_mean (map PInt (map throughput (rounds s))).

Definition py_avg_wip (s : SimulationSummary) : outcome pynum :=
  py_mean (map PInt (map wip (rounds s))).

(** The cycle time of [_print_summary], from the stored averages: the two
    overall means and the guarded division. *)
Definition cycle_time_computation (avg_throughputs avg_wips : list pynum)
    : outcome pyfloat :=
  overall_avg_throughput ← py_mean avg_throughputs;
  overall_avg_wip ← py_mean avg_wips;
  if py_gt0 overall_avg_throughput
  then py_truediv overall_avg_wip overall_avg_throughput
  else Ok FNan.

(** The stored averages of a list of summaries. *)
Fixpoint collect {A B} (f : A -> outcome B) (xs : list A) : outcome (list B) :=
  match xs with
  | [] => Ok []
  | x :: xs => y ← f x; ys ← collect f xs; Ok (y :: ys)
  end.

(** The cycle time that a run reports for its summaries. *)
Definition py_cycle_time (summaries : list SimulationSummary) : outcome pyfloat :=
  avg_throughputs ← collect py_avg_throughput summaries;
  avg_wips ← collect py_avg_wip summaries;
  cycle_time_computation avg_throughputs avg_wips.

(** ** Basic facts: the monad, indexing, sums *)

Lemma bind_ok {St A B} (m : M St A) (k : A -> M St B) s a s' :
  m s = (Ok a, s') -> (m ≫= k) s = k a s'.
Proof. intros E. unfold mbind, M_bind. now rewrite E. Qed.

Lemma index_of_nat (len k : nat) :
  (k < len)%nat -> index_of len (Z.of_nat k) = Ok k.
Proof.
  intros H. unfold index_of.
  destruct (Z.leb_spec 0 (Z.of_nat k)); [| lia].
  destruct (Z.ltb_spec (Z.of_nat k) (Z.of_nat len)); [| lia].
  simpl. now rewrite Nat2Z.id.
Qed.

Lemma getitem_nat {A} (l : list A) (k : nat) (x : A) :
  l !! k = Some x -> getitem l (Z.of_nat k) = Ok x.
Proof.
  intros H. unfold getitem.
  rewrite index_of_nat by (eapply lookup_lt_Some; eauto).
  simpl. now rewrite H.
Qed.

Lemma setitem_nat {A} (l : list A) (k : nat) (v : A) :
  (k < length l)%nat -> setitem l (Z.of_nat k) v = Ok (<[k:=v]> l).
Proof. intros H. unfold setitem. now rewrite index_of_nat. Qed.

Lemma getitem_empty {A} (i : Z) : getitem (@nil A) i = Raise IndexError.
Proof.
  destruct i; reflexivity.
Qed.

Lemma sumZ_app (xs ys : list Z) : sumZ (xs ++ ys) = sumZ xs + sumZ ys.
Proof.
  induction xs as [| x xs IH]; [reflexivity |].
  change (x + sumZ (xs ++ ys) = x + sumZ xs + sumZ ys). lia.
Qed.

Lemma range_length (n : Z) : length (range n) = Z.to_nat n.
Proof. unfold range. now rewrite length_map, length_seq. Qed.

(** ** The stage chain *)

Lemma chain_length index bufs rolls incoming :
  length bufs = length rolls ->
  length (chain index bufs rolls incoming) = length bufs.
Proof.
  revert index rolls incoming.
  induction bufs as [| b bufs IH]; intros index [| r rolls] incoming H;
    simpl in *; try discriminate; auto.
Qed.

Lemma last_processed_cons incoming so outs :
  last_processed incoming (so :: outs) = last_processed (processed so) outs.
Proof.
  unfold last_processed. destruct outs as [| so' outs]; [reflexivity |].
  rewrite last_cons_cons.
  destruct (last (so' :: outs)) eqn:E; [reflexivity |].
  apply last_None in E. discriminate.
Qed.

Section GameFacts.
Context {RS : RandomSource}.

Lemma draws_length n a b (s : rng_state) : length (fst (draws n a b s)) = n.
Proof.
  revert s. induction n as [| n IH]; intros s; simpl; [reflexivity |].
  destruct (rng_randint a b s) as [r s1]. specialize (IH s1).
  destruct (draws n a b s1) as [rs s2]. simpl in *. now rewrite IH.
Qed.

(** The loop of [play_round] over the stages still to run computes the
    chain: [done] are the buffers already rewritten, [todo] those ahead. *)
Lemma play_stages_chain (todo done : list Z) incoming acc (g : DiceGame) :
  buffers g = done ++ todo ->
  1 <= die_sides g ->
  let d := draws (length todo) 1 (die_sides g) (rng g) in
  let outs := chain (Z.of_nat (length done)) todo (fst d) incoming in
  play_stages (map Z.of_nat (seq (length done) (length todo))) incoming acc g
  = (Ok (last_processed incoming outs, acc ++ outs),
     set_rng (snd d) (set_buffers (done ++ map buffer_after outs) g)).
Proof.
  revert done incoming acc g.
  induction todo as [| b todo IH]; intros done incoming acc g Hb Hs; simpl.
  - rewrite app_nil_r in Hb. rewrite !app_nil_r. destruct g; simpl in *. now subst.
  - assert (Hl : buffers g !! length done = Some b)
      by (rewrite Hb; apply list_lookup_middle; reflexivity).
    erewrite bind_ok
      by (unfold buffer_get; rewrite (getitem_nat _ _ _ Hl); reflexivity).
    erewrite bind_ok by reflexivity.
    unfold randint at 1.
    destruct (Z.ltb_spec (die_sides g) 1) as [? | _]; [lia |].
    destruct (rng_randint 1 (die_sides g) (rng g)) as [r s1] eqn:Er.
    erewrite bind_ok by (rewrite Er; reflexivity).
    erewrite bind_ok.
    2:{ unfold buffer_set. simpl. rewrite setitem_nat.
        - reflexivity.
        - rewrite Hb, length_app. simpl. lia. }
    set (so := {| stage := Z.of_nat (length done) |}).
    set (g1 := set_buffers _ _).
    assert (Hb1 : buffers g1 = (done ++ [buffer_after so]) ++ todo).
    { subst g1. simpl. rewrite Hb. rewrite <- app_assoc. simpl.
      rewrite insert_app_r_alt by lia. now rewrite Nat.sub_diag. }
    specialize (IH (done ++ [buffer_after so]) (processed so) (acc ++ [so]) g1 Hb1 Hs).
    rewrite length_app in IH. simpl in IH.
    replace (length done + 1)%nat with (S (length done)) in IH by lia.
    simpl in *. rewrite IH. clear IH.
    destruct (draws (length todo) 1 (die_sides g) s1) as [rs s2] eqn:Ed.
    simpl.
    replace (Z.of_nat (S (length done))) with (Z.of_nat (length done) + 1) by lia.
    fold so. rewrite last_processed_cons.
    rewrite <- !app_assoc. simpl. reflexivity.
Qed.

Lemma released_length release bufs : length (released release bufs) = length bufs.
Proof. now destruct bufs. Qed.

Lemma round_rolls_length (g : DiceGame) : length (round_rolls g) = length (buffers g).
Proof. apply draws_length. Qed.

Lemma round_outs_length (g : DiceGame) : length (round_outs g) = length (buffers g).
Proof.
  unfold round_outs. rewrite chain_length; rewrite released_length; [reflexivity |].
  now rewrite round_rolls_length.
Qed.

(** [play_round] on a shaped object never raises: it returns the round's
    record and leaves the object in [round_next]. *)
Lemma play_round_eq round_index (g : DiceGame) :
  shaped g -> play_round round_index g = (Ok (round_record round_index g), round_next g).
Proof.
  intros (Hn & Hs & Hl).
  destruct (buffers g) as [| b0 rest] eqn:Hb; [simpl in Hl; lia |].
  unfold play_round.
  erewrite bind_ok
    by (unfold buffer_get; rewrite Hb; change 0 with (Z.of_nat 0);
        erewrite getitem_nat; reflexivity).
  erewrite bind_ok by reflexivity.
  erewrite bind_ok.
  2:{ unfold buffer_set. rewrite Hb. change 0 with (Z.of_nat 0).
      rewrite setitem_nat by (simpl; lia). reflexivity. }
  erewrite bind_ok by reflexivity.
  simpl stages. simpl (<[_:=_]> _).
  set (g1 := set_buffers _ g).
  pose proof (play_stages_chain (b0 + release_rate g :: rest) [] 0 [] g1 eq_refl Hs) as Hc.
  simpl length in Hc. unfold range. rewrite <- Hl.
  simpl length. simpl in Hc |- *.
  erewrite bind_ok by exact Hc.
  unfold round_record, round_next, round_outs, round_rolls, released.
  rewrite Hb. simpl. reflexivity.
Qed.

Lemma shaped_round_next (g : DiceGame) : shaped g -> shaped (round_next g).
Proof.
  intros (Hn & Hs & Hl). repeat split; simpl; auto.
  now rewrite length_map, round_outs_length.
Qed.

Lemma shaped_after_rounds k (g : DiceGame) : shaped g -> shaped (after_rounds k g).
Proof.
  revert g. induction k as [| k IH]; intros g Hg; simpl; auto using shaped_round_next.
Qed.

(** The loop of [simulate] appends the rounds' records in order. *)
Lemma play_rounds_eq k i hist (g : DiceGame) :
  shaped g ->
  play_rounds (map Z.of_nat (seq i k)) hist g
  = (Ok (hist ++ history_from (Z.of_nat i) k g), after_rounds k g).
Proof.
  revert i hist g. induction k as [| k IH]; intros i hist g Hg; simpl.
  - now rewrite app_nil_r.
  - erewrite bind_ok by (apply play_round_eq; exact Hg).
    rewrite IH by (apply shaped_round_next; exact Hg).
    rewrite <- app_assoc. simpl.
    replace (Z.of_nat (S i)) with (Z.of_nat i + 1) by lia. reflexivity.
Qed.

End GameFacts.

(** ** Properties of one stage and of the chain *)

Lemma stage_step_consistent index b incoming r :
  consistent (stage_step index b incoming r).
Proof. repeat split. Qed.

Lemma consistent_not_both so :
  consistent so ->
  ~ (starved so = true /\ blocked so = true) /\
  (available so < roll so -> processed so = available so /\ buffer_after so = 0).
Proof.
  intros (Hp & Hb & Hs & Hk). split.
  - intros [Es Ek]. rewrite Hs in Es. rewrite Hk in Ek.
    apply Z.ltb_lt in Es. apply Z.ltb_lt in Ek. lia.
  - intros Hlt. lia.
Qed.

(** Stage [i] of the chain sees buffer [i], roll [i] and what stage [i-1]
    processed (the chain's own input for the first stage). *)
Lemma chain_lookup bufs rolls index incoming i so :
  chain index bufs rolls incoming !! i = Some so ->
  exists b r,
    bufs !! i = Some b /\ rolls !! i = Some r /\
    so = stage_step (index + Z.of_nat i) b
           (match i with
            | O => incoming
            | S j => from_option processed 0 (chain index bufs rolls incoming !! j)
            end) r.
Proof.
  revert rolls index incoming i.
  induction bufs as [| b bufs IH]; intros [| r rolls] index incoming i H;
    simpl in H; try discriminate.
  destruct i as [| i]; simpl in H.
  - inversion H; subst. exists b, r. repeat split.
    now replace (index + Z.of_nat 0) with index by lia.
  - destruct (IH _ _ _ _ H) as (b' & r' & Hb & Hr & Hso).
    exists b', r'. repeat split; auto.
    rewrite Hso. f_equal; [lia |].
    destruct i as [| j]; reflexivity.
Qed.

Lemma chain_Forall (P : StageOutcome -> Prop) bufs rolls index incoming :
  (forall i b inc r, P (stage_step i b inc r)) ->
  Forall P (chain index bufs rolls incoming).
Proof.
  intros HP. revert rolls index incoming.
  induction bufs as [| b bufs IH]; intros [| r rolls] index incoming; simpl;
    constructor; auto.
Qed.

(** With nonnegative buffers and input and positive rolls, every stage
    processes between nothing and what it has, and keeps the rest. *)
Lemma chain_within_bounds bufs rolls index incoming :
  0 <= incoming ->
  Forall (Z.le 0) bufs ->
  Forall (Z.le 1) rolls ->
  Forall within_bounds (chain index bufs rolls incoming).
Proof.
  revert rolls index incoming.
  induction bufs as [| b bufs IH]; intros [| r rolls] index incoming Hi Hb Hr;
    simpl; try constructor.
  - inversion Hb; inversion Hr; subst. unfold within_bounds. simpl. lia.
  - inversion Hb; inversion Hr; subst. apply IH; auto. simpl. lia.
Qed.

Lemma chain_last_nonneg bufs rolls index incoming :
  0 <= incoming ->
  Forall (Z.le 0) bufs ->
  Forall (Z.le 1) rolls ->
  0 <= last_processed incoming (chain index bufs rolls incoming).
Proof.
  revert rolls index incoming.
  induction bufs as [| b bufs IH]; intros [| r rolls] index incoming Hi Hb Hr;
    simpl; try (unfold last_processed; simpl; lia).
  rewrite last_processed_cons. inversion Hb; inversion Hr; subst.
  apply IH; auto. simpl. lia.
Qed.

(** What a stage keeps is never negative, whatever the signs. *)
Lemma chain_buffers_nonneg bufs rolls index incoming :
  Forall (Z.le 0) (map buffer_after (chain index bufs rolls incoming)).
Proof.
  rewrite Forall_fmap. apply chain_Forall. intros; simpl. lia.
Qed.

(** Conservation along the chain: what is kept is what was there plus what
    came in minus what left. *)
Lemma chain_conservation bufs rolls index incoming :
  length bufs = length rolls ->
  sumZ (map buffer_after (chain index bufs rolls incoming))
  = sumZ bufs + incoming - last_processed incoming (chain index bufs rolls incoming).
Proof.
  revert rolls index incoming.
  induction bufs as [| b bufs IH]; intros [| r rolls] index incoming Hl;
    simpl in Hl; try discriminate.
  - unfold last_processed. simpl. lia.
  - simpl chain. rewrite last_processed_cons. simpl map.
    change (sumZ (?x :: ?l)) with (x + sumZ l).
    rewrite IH by lia. simpl. lia.
Qed.

Lemma sumZ_released release bufs :
  bufs <> [] -> sumZ (released release bufs) = sumZ bufs + release.
Proof.
  destruct bufs as [| b bufs]; [congruence |]. intros _.
  simpl released. change (sumZ (?x :: ?l)) with (x + sumZ l). lia.
Qed.

(** A chain whose buffers all exceed the die: every stage processes its
    roll, none is starved, all are blocked. *)
Lemma chain_saturated d bufs rolls index incoming :
  length bufs = length rolls ->
  0 <= incoming ->
  Forall (fun r => 1 <= r <= d) rolls ->
  Forall (Z.lt d) bufs ->
  Forall saturated (chain index bufs rolls incoming) /\
  Forall2 (fun b b' => b - d <= b') bufs
    (map buffer_after (chain index bufs rolls incoming)) /\
  (forall b0, head bufs = Some b0 ->
     exists b0', head (map buffer_after (chain index bufs rolls incoming)) = Some b0' /\
                 b0 + incoming - d <= b0').
Proof.
  revert rolls index incoming.
  induction bufs as [| b bufs IH]; intros [| r rolls] index incoming Hl Hi Hr Hb;
    simpl in Hl; try discriminate.
  - simpl. repeat split; try constructor. discriminate.
  - inversion Hr as [| ? ? Hr1 Hr2]; inversion Hb as [| ? ? Hb1 Hb2]; subst.
    assert (Hmin : Z.min (b + incoming) r = r) by lia.
    destruct (IH rolls (index + 1) r) as (IH1 & IH2 & _); auto; try lia.
    simpl chain. simpl processed. rewrite Hmin.
    repeat split.
    + constructor; [| exact IH1].
      unfold saturated. simpl. rewrite Hmin. repeat split.
      * apply Z.ltb_ge. lia.
      * apply Z.ltb_lt. lia.
    + simpl. constructor; [lia | exact IH2].
    + intros b0 Hb0. simpl in Hb0. inversion Hb0; subst.
      eexists. split; [reflexivity |]. simpl. lia.
Qed.

Lemma Forall2_lower_bound (d lo : Z) (bufs bufs' : list Z) :
  Forall2 (fun b b' => b - d <= b') bufs bufs' ->
  Forall (Z.le lo) bufs ->
  Forall (Z.le (lo - d)) bufs'.
Proof.
  induction 1 as [| b b' bufs bufs' Hb _ IH]; intros Hlo; constructor;
    inversion Hlo; subst; [lia | auto].
Qed.

Lemma released_Forall (P : Z -> Prop) release bufs :
  (forall b, P b -> P (b + release)) -> Forall P bufs -> Forall P (released release bufs).
Proof.
  intros HP [| b bufs' Hb Hbs]; simpl; constructor; auto.
Qed.

(** ** Rounds on a well-formed object *)

Section RoundFacts.
Context {RS : RandomSource}.
Hypothesis lawful : randint_in_range RS.

Lemma draws_in_range n a b (s : rng_state) :
  a <= b -> Forall (fun r => a <= r <= b) (fst (draws n a b s)).
Proof.
  intros Hab. revert s. induction n as [| n IH]; intros s; simpl; [constructor |].
  pose proof (lawful a b s Hab) as Hr.
  destruct (rng_randint a b s) as [r s1]. specialize (IH s1).
  destruct (draws n a b s1) as [rs s2]. simpl in *. constructor; auto.
Qed.

Lemma round_rolls_in_range (g : DiceGame) :
  1 <= die_sides g -> Forall (fun r => 1 <= r <= die_sides g) (round_rolls g).
Proof. intros H. now apply draws_in_range. Qed.

Lemma round_rolls_positive (g : DiceGame) :
  1 <= die_sides g -> Forall (Z.le 1) (round_rolls g).
Proof.
  intros H. eapply Forall_impl; [now apply round_rolls_in_range |].
  simpl. intros; lia.
Qed.

Lemma wf_shaped (g : DiceGame) : wf g -> shaped g.
Proof. now intros [H _]. Qed.

Lemma wf_released_nonneg (g : DiceGame) :
  wf g -> Forall (Z.le 0) (released (release_rate g) (buffers g)).
Proof.
  intros (_ & _ & Hr & Hb). apply released_Forall; [intros; lia | exact Hb].
Qed.

Lemma wf_round_next (g : DiceGame) : wf g -> wf (round_next g).
Proof.
  intros Hg. pose proof Hg as (Hs & Hd & Hr & Hb).
  repeat split; try apply (shaped_round_next g Hs); auto.
  simpl. apply chain_buffers_nonneg.
Qed.

Lemma wf_after_rounds k (g : DiceGame) : wf g -> wf (after_rounds k g).
Proof.
  revert g. induction k as [| k IH]; intros g Hg; simpl; auto using wf_round_next.
Qed.

Lemma round_outs_within_bounds (g : DiceGame) :
  wf g -> Forall within_bounds (round_outs g).
Proof.
  intros Hg. pose proof Hg as ((_ & Hd & _) & _).
  apply chain_within_bounds; [lia | now apply wf_released_nonneg |].
  now apply round_rolls_positive.
Qed.

Lemma round_throughput_nonneg i (g : DiceGame) :
  wf g -> 0 <= throughput (round_record i g).
Proof.
  intros Hg. pose proof Hg as ((_ & Hd & _) & _). simpl.
  apply chain_last_nonneg; [lia | now apply wf_released_nonneg |].
  now apply round_rolls_positive.
Qed.

Lemma history_throughput_nonneg k i (g : DiceGame) :
  wf g -> Forall (fun r => 0 <= throughput r) (history_from i k g).
Proof.
  revert i g. induction k as [| k IH]; intros i g Hg; simpl; constructor.
  - now apply (round_throughput_nonneg (i + 1)).
  - apply IH. now apply wf_round_next.
Qed.

(** Rounds that start with every buffer above [lo], itself far enough
    above the die: all stages saturated, every buffer loses at most the die
    per round, and the first gains at least [release_rate - die_sides]. *)
Lemma saturated_rounds k i lo (g : DiceGame) :
  shaped g ->
  0 <= release_rate g ->
  die_sides g * Z.of_nat k < lo ->
  Forall (Z.le lo) (buffers g) ->
  Forall (fun r => Forall saturated (stage_outcomes r)) (history_from i k g) /\
  Forall (Z.le (lo - die_sides g * Z.of_nat k)) (buffers (after_rounds k g)) /\
  (forall b0, head (buffers g) = Some b0 ->
     exists b0', head (buffers (after_rounds k g)) = Some b0' /\
                 b0 + Z.of_nat k * (release_rate g - die_sides g) <= b0').
Proof.
  revert i lo g. induction k as [| k IH]; intros i lo g Hs Hr Hlo Hb.
  - simpl. repeat split; [constructor | | ].
    + eapply Forall_impl; [exact Hb |]. simpl. intros; lia.
    + intros b0 E. exists b0. split; [exact E | lia].
  - pose proof Hs as (_ & Hd & _).
    assert (Hrel : Forall (Z.lt (die_sides g)) (released (release_rate g) (buffers g))).
    { apply released_Forall; [intros; lia |].
      eapply Forall_impl; [exact Hb |]. simpl. intros; lia. }
    destruct (chain_saturated (die_sides g)
                (released (release_rate g) (buffers g)) (round_rolls g) 0 0)
      as (Hsat & Hlow & Hhead); auto; try lia.
    { now rewrite released_length, round_rolls_length. }
    { now apply round_rolls_in_range. }
    fold (round_outs g) in Hsat, Hlow, Hhead.
    assert (Hb1 : Forall (Z.le (lo - die_sides g)) (buffers (round_next g))).
    { simpl. eapply Forall2_lower_bound; [exact Hlow |].
      apply released_Forall; [intros; lia | exact Hb]. }
    destruct (IH (i + 1) (lo - die_sides g) (round_next g)) as (IH1 & IH2 & IH3);
      auto using shaped_round_next; simpl die_sides; simpl release_rate; try lia.
    simpl. repeat split.
    + constructor; [exact Hsat | exact IH1].
    + eapply Forall_impl; [exact IH2 |]. simpl. intros; lia.
    + intros b0 E.
      destruct (buffers g) as [| b bufs]; [discriminate |].
      simpl in E. inversion E; subst.
      destruct (Hhead (b0 + release_rate g) eq_refl) as (b1 & E1 & Hb1').
      destruct (IH3 b1 E1) as (b2 & E2 & Hb2).
      exists b2. split; [exact E2 |]. simpl in Hb2. lia.
Qed.

End RoundFacts.

(** ** The aggregation of [simulate] *)

Lemma bump_ok (counts : list Z) (i : nat) :
  (i < length counts)%nat ->
  exists counts', bump counts (Z.of_nat i) = Ok counts' /\ length counts' = length counts.
Proof.
  intros Hi. destruct (lookup_lt_is_Some_2 counts i Hi) as [c Hc].
  exists (<[i:=c + 1]> counts). unfold bump.
  rewrite (getitem_nat _ _ _ Hc). simpl.
  rewrite setitem_nat by exact Hi. now rewrite length_insert.
Qed.

Lemma count_stages_ok n outs (sc bc : list Z) :
  length sc = n -> length bc = n ->
  Forall (stage_below n) outs ->
  exists sc' bc', count_stages outs (sc, bc) = Ok (sc', bc') /\
                  length sc' = n /\ length bc' = n.
Proof.
  intros Hsc Hbc Houts. revert sc bc Hsc Hbc.
  induction Houts as [| so outs (i & Ei & Hi) _ IH]; intros sc bc Hsc Hbc.
  - exists sc, bc. auto.
  - simpl. rewrite Ei.
    assert (Hs : exists sc1, (if starved so then bump sc (Z.of_nat i) else Ok sc) = Ok sc1
                             /\ length sc1 = n).
    { destruct (starved so); [| eauto].
      destruct (bump_ok sc i) as (sc1 & E & L); [lia |]. exists sc1. split; [exact E | lia]. }
    assert (Hb : exists bc1, (if blocked so then bump bc (Z.of_nat i) else Ok bc) = Ok bc1
                             /\ length bc1 = n).
    { destruct (blocked so); [| eauto].
      destruct (bump_ok bc i) as (bc1 & E & L); [lia |]. exists bc1. split; [exact E | lia]. }
    destruct Hs as (sc1 & Es & Ls). destruct Hb as (bc1 & Eb & Lb).
    rewrite Es. simpl. rewrite Eb. simpl. now apply IH.
Qed.

Lemma count_rounds_ok n history (sc bc : list Z) :
  length sc = n -> length bc = n ->
  Forall (fun r => Forall (stage_below n) (stage_outcomes r)) history ->
  exists sc' bc', count_rounds history (sc, bc) = Ok (sc', bc') /\
                  length sc' = n /\ length bc' = n.
Proof.
  intros Hsc Hbc Hh. revert sc bc Hsc Hbc.
  induction Hh as [| r history Hr _ IH]; intros sc bc Hsc Hbc.
  - exists sc, bc. auto.
  - simpl. destruct (count_stages_ok n _ sc bc Hsc Hbc Hr) as (sc1 & bc1 & E & L1 & L2).
    rewrite E. simpl. now apply IH.
Qed.

Lemma mean_ok xs : xs <> [] -> mean xs = Ok (sumQ xs / lenQ xs)%Q.
Proof. destruct xs; [congruence | reflexivity]. Qed.

Lemma pstdev_ok xs : xs <> [] -> exists sd, pstdev xs = Ok sd.
Proof.
  intros H. unfold pstdev, pvariance. rewrite (mean_ok xs H). simpl. eauto.
Qed.

Lemma intsQ_nonempty xs : xs <> [] -> intsQ xs <> [].
Proof. destruct xs; [congruence | discriminate]. Qed.

Lemma stdev_field_ok series : series <> [] -> exists sd, stdev_field series = Ok sd.
Proof.
  intros H. unfold stdev_field.
  destruct (1 <? length series)%nat; [| eauto].
  now apply pstdev_ok, intsQ_nonempty.
Qed.

(** On a non-empty history whose stage indices are below the stage count,
    the aggregation returns, and its fields are those of the source. *)
Lemma summarize_ok n nrounds history :
  history <> [] ->
  Forall (fun r => Forall (stage_below (Z.to_nat n)) (stage_outcomes r)) history ->
  exists s,
    summarize n nrounds history = Ok s /\
    rounds s = history /\
    mean (intsQ (map throughput history)) = Ok (avg_throughput s) /\
    stdev_field (map throughput history) = Ok (throughput_stdev s) /\
    mean (intsQ (map wip history)) = Ok (avg_wip s) /\
    total_throughput s = sumZ (map throughput history).
Proof.
  intros Hne Hst. unfold summarize.
  fold (stdev_field (map throughput history)).
  assert (Ht0 : map throughput history <> [])
    by (destruct history; [congruence | discriminate]).
  assert (Ht : intsQ (map throughput history) <> []) by now apply intsQ_nonempty.
  assert (Hw : intsQ (map wip history) <> [])
    by (apply intsQ_nonempty; destruct history; [congruence | discriminate]).
  destruct (stdev_field_ok _ Ht0) as [sd Esd].
  destruct (count_rounds_ok (Z.to_nat n) history
              (map (fun _ => 0) (range n)) (map (fun _ => 0) (range n)))
    as (sc & bc & Ec & _); try (now rewrite length_map, range_length); auto.
  rewrite (mean_ok _ Ht), (mean_ok _ Hw), Esd, Ec. simpl.
  eexists. repeat split.
Qed.

Lemma chain_stage_below bufs rolls (k : nat) incoming :
  Forall (stage_below (k + length bufs)) (chain (Z.of_nat k) bufs rolls incoming).
Proof.
  revert rolls k incoming.
  induction bufs as [| b bufs IH]; intros [| r rolls] k incoming; simpl;
    constructor.
  - exists k. simpl. split; [reflexivity | lia].
  - replace (Z.of_nat k + 1) with (Z.of_nat (S k)) by lia.
    replace (k + S (length bufs))%nat with (S k + length bufs)%nat by lia.
    apply IH.
Qed.

Section SimulateFacts.
Context {RS : RandomSource}.

Lemma round_outs_stage_below (g : DiceGame) :
  Forall (stage_below (length (buffers g))) (round_outs g).
Proof.
  unfold round_outs. rewrite <- (released_length (release_rate g)).
  apply (chain_stage_below _ _ 0).
Qed.

Lemma history_stage_below k i (g : DiceGame) :
  Forall (fun r => Forall (stage_below (length (buffers g))) (stage_outcomes r))
    (history_from i k g).
Proof.
  revert i g. induction k as [| k IH]; intros i g; simpl; constructor.
  - apply round_outs_stage_below.
  - specialize (IH (i + 1) (round_next g)). simpl in IH.
    now rewrite length_map, round_outs_length in IH.
Qed.

Lemma history_from_length k i (g : DiceGame) : length (history_from i k g) = k.
Proof. revert i g. induction k as [| k IH]; intros; simpl; auto. Qed.

Lemma stages_after_rounds k (g : DiceGame) : stages (after_rounds k g) = stages g.
Proof. revert g. induction k as [| k IH]; intros g; simpl; [| rewrite IH]; reflexivity. Qed.

(** [simulate] with too few rounds raises at once and touches nothing. *)
Lemma simulate_too_few nrounds (g : DiceGame) :
  nrounds < 1 -> simulate nrounds g = (Raise (ValueError "rounds must be >= 1"), g).
Proof.
  intros H. unfold simulate. destruct (Z.ltb_spec nrounds 1); [reflexivity | lia].
Qed.

(** [simulate] on a shaped object: the rounds are played, then summarised. *)
Lemma simulate_eq nrounds (g : DiceGame) :
  shaped g -> 1 <= nrounds ->
  simulate nrounds g
  = (summarize (stages g) nrounds (history_from 0 (Z.to_nat nrounds) g),
     after_rounds (Z.to_nat nrounds) g).
Proof.
  intros Hg Hr. unfold simulate.
  destruct (Z.ltb_spec nrounds 1); [lia |].
  unfold range.
  erewrite bind_ok by (apply (play_rounds_eq _ 0 [] g Hg)).
  erewrite bind_ok by reflexivity.
  now rewrite stages_after_rounds.
Qed.

Lemma simulate_ok nrounds (g : DiceGame) :
  shaped g -> 1 <= nrounds ->
  exists s,
    simulate nrounds g = (Ok s, after_rounds (Z.to_nat nrounds) g) /\
    summarize (stages g) nrounds (history_from 0 (Z.to_nat nrounds) g) = Ok s /\
    rounds s = history_from 0 (Z.to_nat nrounds) g /\
    mean (intsQ (map throughput (rounds s))) = Ok (avg_throughput s) /\
    stdev_field (map throughput (rounds s)) = Ok (throughput_stdev s) /\
    mean (intsQ (map wip (rounds s))) = Ok (avg_wip s) /\
    total_throughput s = sumZ (map throughput (rounds s)).
Proof.
  intros Hg Hr. rewrite simulate_eq by assumption.
  destruct (summarize_ok (stages g) nrounds (history_from 0 (Z.to_nat nrounds) g))
    as (s & Es & E1 & E2 & E3 & E4 & E5).
  - intros E. apply (f_equal length) in E. rewrite history_from_length in E.
    simpl in E. lia.
  - destruct Hg as (_ & _ & Hl). rewrite <- Hl. apply history_stage_below.
  - exists s. rewrite E1. rewrite Es. repeat split; assumption.
Qed.

End SimulateFacts.

(** ** The two generators keep the library's promise *)

Lemma replay_in_range script : randint_in_range (replay script).
Proof.
  intros a b [| x s] Hab; simpl; [lia |].
  pose proof (Z.mod_pos_bound x (b - a + 1)). lia.
Qed.

Lemma lcg_in_range : randint_in_range lcg.
Proof.
  intros a b s Hab. simpl.
  pose proof (Z.mod_pos_bound ((1103515245 * s + 12345) mod 2147483648) (b - a + 1)).
  lia.
Qed.

(** ** Construction *)

Section InitFacts.
Context {RS : RandomSource}.

Lemma init_ok nstages sides release initial seed entropy :
  valid_config nstages sides release initial ->
  __init__ nstages sides release initial seed entropy
  = Ok {| stages := nstages; die_sides := sides; release_rate := release;
          buffers := map (fun _ => initial) (range nstages);
          rng := rng_seed (match seed with Some n => n | None => entropy end) |}.
Proof.
  intros (H1 & H2 & H3 & H4). unfold __init__.
  destruct (Z.ltb_spec nstages 1); [lia |].
  destruct (Z.ltb_spec sides 2); [lia |].
  destruct (Z.ltb_spec release 0); [lia |].
  destruct (Z.ltb_spec initial 0); [lia |]. reflexivity.
Qed.

Lemma init_invalid nstages sides release initial seed entropy :
  ~ valid_config nstages sides release initial ->
  is_value_error (__init__ nstages sides release initial seed entropy) = true.
Proof.
  intros H. unfold __init__, valid_config in *.
  destruct (Z.ltb_spec nstages 1); [reflexivity |].
  destruct (Z.ltb_spec sides 2); [reflexivity |].
  destruct (Z.ltb_spec release 0); [reflexivity |].
  destruct (Z.ltb_spec initial 0); [reflexivity |]. lia.
Qed.

Lemma init_wf nstages sides release initial seed entropy (g : DiceGame) :
  __init__ nstages sides release initial seed entropy = Ok g ->
  wf g /\ stages g = nstages /\ die_sides g = sides /\ release_rate g = release /\
  buffers g = map (fun _ => initial) (range nstages).
Proof.
  intros E.
  destruct (Z.le_gt_cases 1 nstages), (Z.le_gt_cases 2 sides),
    (Z.le_gt_cases 0 release), (Z.le_gt_cases 0 initial);
    try (rewrite init_ok in E by (repeat split; assumption);
         inversion E; subst; clear E; simpl;
         repeat split; simpl; try lia;
         [now rewrite length_map, range_length
         | apply Forall_fmap, Forall_forall; intros; simpl; lia]);
    exfalso;
    assert (Hv : is_value_error (__init__ nstages sides release initial seed entropy) = true)
      by (apply init_invalid; unfold valid_config; lia);
    rewrite E in Hv; discriminate.
Qed.

End InitFacts.

Lemma demo_game_wf : wf demo_game.
Proof.
  unfold wf, shaped, demo_game; simpl.
  repeat split; try lia; try reflexivity. repeat constructor; lia.
Qed.

(** ** The round executor *)

(** C1.  A round on a well-formed object returns.  [release_rate] is in
    stage 0's [available] (it was added to [buffers[0]] before any stage
    ran); stage [i] sees its own buffer plus what stage [i-1] processed,
    rolls the [i]-th of [stages] successive draws of [randint(1, die_sides)],
    processes the minimum of the two, keeps the rest, sets [starved] and
    [blocked] from them, and writes what it keeps back to [buffers[i]]; the
    generator is left after exactly [stages] draws. *)
Theorem play_round_semantics {RS : RandomSource} (g : DiceGame) (round_index : Z) :
  randint_in_range RS ->
  wf g ->
  exists out g',
    play_round round_index g = (Ok out, g') /\
    let n := Z.to_nat (stages g) in
    let d := draws n 1 (die_sides g) (rng g) in
    rng g' = snd d /\
    length (stage_outcomes out) = n /\
    length (buffers g') = n /\
    forall i so,
      stage_outcomes out !! i = Some so ->
      exists b r,
        buffers g !! i = Some b /\ fst d !! i = Some r /\
        1 <= r <= die_sides g /\
        let incoming :=
          match i with
          | O => 0
          | S j => from_option processed 0 (stage_outcomes out !! j)
          end in
        let release := match i with O => release_rate g | S _ => 0 end in
        stage so = Z.of_nat i /\ roll so = r /\
        available so = (b + release) + incoming /\
        processed so = Z.min (available so) r /\
        buffer_after so = available so - processed so /\
        starved so = (available so <? r) /\
        blocked so = (0 <? buffer_after so) /\
        buffers g' !! i = Some (buffer_after so).
Proof.
  intros lawful Hg. pose proof (wf_shaped g Hg) as Hs.
  pose proof Hs as (Hn & Hd & Hl).
  exists (round_record round_index g), (round_next g).
  split; [now apply play_round_eq |].
  simpl. rewrite <- Hl.
  split; [reflexivity |].
  split; [apply round_outs_length |].
  split; [now rewrite length_map, round_outs_length |].
  intros i so Hso.
  destruct (chain_lookup _ _ _ _ _ _ Hso) as (b' & r & Hb' & Hr & Eso).
  fold (round_outs g) in Eso. fold (round_rolls g) in Hr |- *.
  assert (Hrange : 1 <= r <= die_sides g).
  { pose proof (round_rolls_in_range lawful g Hd) as HF.
    rewrite Forall_lookup in HF. exact (HF i r Hr). }
  assert (Hb : exists b, buffers g !! i = Some b /\
                         b' = b + match i with O => release_rate g | S _ => 0 end).
  { destruct (buffers g) as [| b0 bufs]; [destruct i; discriminate |].
    destruct i as [| j]; simpl in Hb'.
    - inversion Hb'. eauto.
    - exists b'. split; [exact Hb' | lia]. }
  destruct Hb as (b & Hb & Eb). exists b, r.
  split; [exact Hb |]. split; [exact Hr |]. split; [exact Hrange |].
  rewrite list_lookup_fmap, Hso. subst so b'. simpl.
  repeat split.
Qed.

Lemma play_round_semantics_witness :
  exists out g', play_round 1 demo_game = (Ok out, g') /\
                 length (stage_outcomes out) = 3%nat.
Proof.
  destruct (play_round_semantics demo_game 1 lcg_in_range demo_game_wf)
    as (out & g' & E & _ & L & _).
  exists out, g'. split; [exact E | exact L].
Defined.

(** C2.  In the record of a round on a well-formed object, every stage has
    [0 <= processed <= available] and [buffer_after = available - processed
    >= 0]; [throughput] is the last stage's [processed]; [wip] is the sum of
    the buffers the round leaves. *)
Theorem round_outcome_invariants {RS : RandomSource} (g : DiceGame) (round_index : Z) :
  randint_in_range RS ->
  wf g ->
  exists out g',
    play_round round_index g = (Ok out, g') /\
    (forall so, In so (stage_outcomes out) ->
       0 <= processed so <= available so /\
       buffer_after so = available so - processed so /\
       0 <= buffer_after so) /\
    (exists so, last (stage_outcomes out) = Some so /\ throughput out = processed so) /\
    wip out = sumZ (buffers g').
Proof.
  intros lawful Hg. pose proof (wf_shaped g Hg) as Hs.
  exists (round_record round_index g), (round_next g).
  split; [now apply play_round_eq |]. simpl.
  split; [| split; [| reflexivity]].
  - intros so Hin.
    pose proof (round_outs_within_bounds lawful g Hg) as HF.
    rewrite List.Forall_forall in HF. exact (HF so Hin).
  - unfold last_processed.
    destruct (last (round_outs g)) as [so |] eqn:E; [eauto |].
    apply last_None in E. apply (f_equal length) in E.
    rewrite round_outs_length in E. destruct Hs as (? & ? & Hl).
    rewrite Hl in E. simpl in E. lia.
Qed.

Lemma round_outcome_invariants_witness :
  exists out g', play_round 1 demo_game = (Ok out, g') /\ wip out = sumZ (buffers g').
Proof.
  destruct (round_outcome_invariants demo_game 1 lcg_in_range demo_game_wf)
    as (out & g' & E & _ & _ & W).
  exists out, g'. split; [exact E | exact W].
Defined.

(** C9.  A round conserves material: on an object whose buffers are all
    nonnegative, the reported [wip] is the sum of the buffers before the
    round plus [release_rate] minus the round's [throughput], and the
    buffers are all nonnegative afterwards. *)
Theorem round_conserves_material {RS : RandomSource} (g : DiceGame) (round_index : Z) :
  shaped g ->
  Forall (Z.le 0) (buffers g) ->
  exists out g',
    play_round round_index g = (Ok out, g') /\
    wip out = sumZ (buffers g) + release_rate g - throughput out /\
    Forall (Z.le 0) (buffers g').
Proof.
  intros Hs _.
  exists (round_record round_index g), (round_next g).
  split; [now apply play_round_eq |]. simpl. split.
  - unfold round_outs.
    rewrite chain_conservation
      by now rewrite released_length, round_rolls_length.
    rewrite sumZ_released; [lia |].
    destruct Hs as (? & ? & Hl). intros E. rewrite E in Hl. simpl in Hl. lia.
  - apply chain_buffers_nonneg.
Qed.

Lemma round_conserves_material_witness :
  exists out g', play_round 1 demo_game = (Ok out, g') /\
                 wip out = 3 + 3 + 3 + 4 - throughput out.
Proof.
  destruct (round_conserves_material demo_game 1) as (out & g' & E & W & _).
  - unfold shaped, demo_game; simpl. repeat split; lia.
  - unfold demo_game; simpl. repeat constructor; lia.
  - exists out, g'. split; [exact E | exact W].
Defined.

(** Whatever the object, the outcomes the stage loop appends are
    consistent: an invariant of the loop itself. *)
Lemma play_stages_consistent {RS : RandomSource} indices incoming acc (g : DiceGame)
    x outs g' :
  play_stages indices incoming acc g = (Ok (x, outs), g') ->
  Forall consistent acc ->
  Forall consistent outs.
Proof.
  revert incoming acc g.
  induction indices as [| index indices IH]; intros incoming acc g H Hacc.
  - inversion H; subst. exact Hacc.
  - simpl in H. unfold mbind, M_bind in H.
    destruct (buffer_get index g) as [[b | e] g1]; [| discriminate].
    unfold gets at 1 in H.
    destruct (randint 1 (die_sides g1) g1) as [[r | e] g2]; [| discriminate].
    destruct (buffer_set index (b + incoming - Z.min (b + incoming) r) g2)
      as [[[] | e] g3]; [| discriminate].
    apply IH in H; [exact H |].
    apply Forall_app. split; [exact Hacc |].
    constructor; [| constructor]. repeat split.
Qed.

(** C10.  No stage outcome of a round is both starved and blocked: a
    stage with [available < roll] processes all it has and keeps nothing. *)
Theorem starved_excludes_blocked {RS : RandomSource} (g g' : DiceGame)
    (round_index : Z) (out : RoundOutcome) (so : StageOutcome) :
  play_round round_index g = (Ok out, g') ->
  In so (stage_outcomes out) ->
  ~ (starved so = true /\ blocked so = true) /\
  (available so < roll so -> processed so = available so /\ buffer_after so = 0).
Proof.
  intros H Hin. apply consistent_not_both.
  unfold play_round in H. unfold mbind, M_bind in H.
  destruct (buffer_get 0 g) as [[b | e] g1]; [| discriminate].
  unfold gets at 1 in H.
  destruct (buffer_set 0 (b + release_rate g1) g1) as [[[] | e] g2]; [| discriminate].
  unfold gets at 1 in H.
  destruct (play_stages (range (stages g2)) 0 [] g2) as [[[x outs] | e] g3] eqn:E;
    [| discriminate].
  unfold gets, mret, M_ret in H. inversion H; subst; clear H. simpl in Hin.
  pose proof (play_stages_consistent _ _ _ _ _ _ _ E (List.Forall_nil _)) as HF.
  rewrite List.Forall_forall in HF. exact (HF so Hin).
Qed.

Lemma starved_excludes_blocked_witness :
  exists so, In so (stage_outcomes (round_record 1 demo_game)) /\
             ~ (starved so = true /\ blocked so = true).
Proof.
  eexists. split.
  - cbv. left. reflexivity.
  - apply (starved_excludes_blocked demo_game (round_next demo_game) 1
             (round_record 1 demo_game)).
    + apply play_round_eq. exact (wf_shaped _ demo_game_wf).
    + cbv. left. reflexivity.
Defined.

(** ** The saturated line *)

(** C8, as the code has it.  With [stages=3, die_sides=6, release_rate=100,
    initial_buffer=1000, rounds=5], whatever the generator rolls within
    [[1, 6]]: every stage of every round processes exactly its roll, is not
    starved and is blocked, and the first stage's buffer ends strictly
    above where it started. *)
Theorem saturated_line {RS : RandomSource} (seed : option Z) (entropy : Z) :
  randint_in_range RS ->
  exists g s g',
    __init__ 3 6 100 1000 seed entropy = Ok g /\
    simulate 5 g = (Ok s, g') /\
    length (rounds s) = 5%nat /\
    (forall r so, In r (rounds s) -> In so (stage_outcomes r) ->
       processed so = roll so /\ starved so = false /\ blocked so = true) /\
    (exists b0 b0', buffers g !! 0%nat = Some b0 /\ buffers g' !! 0%nat = Some b0' /\
                    b0 < b0').
Proof.
  intros lawful.
  assert (Hv : valid_config 3 6 100 1000) by (unfold valid_config; lia).
  pose proof (init_ok 3 6 100 1000 seed entropy Hv) as Einit.
  destruct (init_wf _ _ _ _ _ _ _ Einit) as (Hg & _).
  set (g := {| stages := 3 |}) in *.
  pose proof (wf_shaped g Hg) as Hs.
  destruct (simulate_ok 5 g Hs) as (s & E & _ & Er & _); [lia |].
  destruct (saturated_rounds lawful 5 0 1000 g Hs) as (Hsat & _ & Hhead);
    try (simpl; lia).
  { simpl. repeat constructor; lia. }
  exists g, s, (after_rounds (Z.to_nat 5) g).
  split; [exact Einit |]. split; [exact E |]. rewrite Er.
  split; [apply history_from_length |]. split.
  - intros r so Hr Hso. rewrite List.Forall_forall in Hsat.
    pose proof (Hsat r Hr) as HF. rewrite List.Forall_forall in HF.
    exact (HF so Hso).
  - destruct (Hhead 1000 eq_refl) as (b0' & E0 & Hb0).
    exists 1000, b0'. split; [reflexivity |]. split.
    + change (Z.to_nat 5) with 5%nat.
      destruct (buffers (after_rounds 5 g)); [discriminate | exact E0].
    + simpl in Hb0. lia.
Qed.

Lemma saturated_line_witness :
  exists g s g', @__init__ lcg 3 6 100 1000 (Some 7) 0 = Ok g /\
                 simulate 5 g = (Ok s, g') /\ length (rounds s) = 5%nat.
Proof.
  destruct (@saturated_line lcg (Some 7) 0 lcg_in_range)
    as (g & s & g' & E1 & E2 & L & _).
  exists g, s, g'. repeat split; assumption.
Defined.

(** The spec's reading of C8 ends with "every stage's buffer is strictly
    larger after the run than before it".  With rolls 1, 6, 1 in every
    round the second stage takes in one unit and hands on six: its buffer
    goes from 1000 to 975. *)
Lemma saturated_line_buffer_shrinks :
  exists s,
    __init__ 3 6 100 1000 (Some 0) 0 = Ok shrink_start /\
    simulate 5 shrink_start = (Ok s, shrink_end) /\
    buffers shrink_start !! 1%nat = Some 1000 /\
    buffers shrink_end !! 1%nat = Some 975 /\
    ~ (1000 < 975).
Proof.
  assert (Hs : shaped shrink_start)
    by (unfold shaped, shrink_start; simpl; repeat split; lia).
  destruct (simulate_ok 5 shrink_start Hs) as (s & E & _); [lia |].
  exists s. split; [reflexivity |]. split; [| repeat split; lia].
  rewrite E. f_equal.
Qed.

(** ** Configuration errors *)

(** C6.  The constructor raises [ValueError] exactly when [stages < 1],
    [die_sides < 2], [release_rate < 0] or [initial_buffer < 0], and builds
    no object then.  On a constructed object [simulate] raises [ValueError]
    exactly when [rounds < 1]; it does so before any round: the object
    (buffers and generator) is as it was and no history is returned. *)
Theorem configuration_errors {RS : RandomSource}
    (nstages sides release initial : Z) (seed : option Z) (entropy : Z)
    (g : DiceGame) (nrounds : Z) :
  wf g ->
  (is_value_error (__init__ nstages sides release initial seed entropy) = true
   <-> nstages < 1 \/ sides < 2 \/ release < 0 \/ initial < 0) /\
  (is_ok (__init__ nstages sides release initial seed entropy) = true
   <-> ~ (nstages < 1 \/ sides < 2 \/ release < 0 \/ initial < 0)) /\
  (is_value_error (fst (simulate nrounds g)) = true <-> nrounds < 1) /\
  (is_ok (fst (simulate nrounds g)) = true <-> ~ nrounds < 1) /\
  (nrounds < 1 ->
   exists msg, simulate nrounds g = (Raise (ValueError msg), g)).
Proof.
  intros Hg. pose proof (wf_shaped g Hg) as Hs.
  assert (Hinit : (valid_config nstages sides release initial /\
                   is_ok (__init__ nstages sides release initial seed entropy) = true /\
                   is_value_error (__init__ nstages sides release initial seed entropy) = false)
                  \/ (~ valid_config nstages sides release initial /\
                      is_ok (__init__ nstages sides release initial seed entropy) = false /\
                      is_value_error (__init__ nstages sides release initial seed entropy) = true)).
  { assert (Hd : valid_config nstages sides release initial \/
                  ~ valid_config nstages sides release initial)
      by (unfold valid_config; lia).
    destruct Hd as [Hv | Hv].
    - left. rewrite (init_ok _ _ _ _ seed entropy Hv).
      split; [exact Hv | split; reflexivity].
    - right. pose proof (init_invalid _ _ _ _ seed entropy Hv) as He.
      split; [exact Hv | split; [| exact He]].
      destruct (__init__ nstages sides release initial seed entropy);
        [discriminate | reflexivity]. }
  assert (Hsim : (1 <= nrounds /\ is_ok (fst (simulate nrounds g)) = true /\
                  is_value_error (fst (simulate nrounds g)) = false)
                 \/ (nrounds < 1 /\
                     simulate nrounds g = (Raise (ValueError "rounds must be >= 1"), g))).
  { destruct (Z.le_gt_cases 1 nrounds) as [Hr | Hr].
    - left. destruct (simulate_ok nrounds g Hs Hr) as (s & E & _).
      rewrite E. split; [exact Hr | split; reflexivity].
    - right. split; [lia |]. apply simulate_too_few. lia. }
  unfold valid_config in Hinit.
  repeat split.
  - intros H. destruct Hinit as [(_ & _ & E) | (Hv & _)]; [congruence | lia].
  - intros H. destruct Hinit as [(Hv & _) | (_ & _ & E)]; [lia | exact E].
  - intros H. destruct Hinit as [(Hv & _) | (_ & E & _)]; [lia | congruence].
  - intros H. destruct Hinit as [(_ & E & _) | (Hv & _)]; [exact E | lia].
  - intros H. destruct Hsim as [(_ & _ & E) | (Hr & _)]; [congruence | exact Hr].
  - intros H. destruct Hsim as [(Hr & _) | (_ & E)]; [lia | now rewrite E].
  - intros H. destruct Hsim as [(Hr & _) | (_ & E)]; [lia |].
    rewrite E in H. discriminate.
  - intros H. destruct Hsim as [(_ & E & _) | (Hr & _)]; [exact E | lia].
  - intros H. destruct Hsim as [(Hr & _) | (_ & E)]; [lia | eauto].
Qed.

Lemma configuration_errors_witness :
  is_value_error (fst (simulate 0 demo_game)) = true /\
  exists msg, simulate 0 demo_game = (Raise (ValueError msg), demo_game).
Proof.
  destruct (@configuration_errors lcg 0 6 4 3 None 0 demo_game 0 demo_game_wf)
    as (_ & _ & Hv & _ & Hr).
  split; [apply Hv; lia | apply Hr; lia].
Defined.

(** ** Reproducibility *)

(** C3.  Two objects constructed with the same parameters and the same
    integer seed, whatever else the system would have seeded them with,
    run to the same summary under [simulate] with the same number of
    rounds: the same history, field by field. *)
Theorem seeded_runs_agree {RS : RandomSource}
    (nstages sides release initial seed nrounds entropy1 entropy2 : Z) :
  valid_config nstages sides release initial ->
  1 <= nrounds ->
  exists g1 g2 s1 s2 g1' g2',
    __init__ nstages sides release initial (Some seed) entropy1 = Ok g1 /\
    __init__ nstages sides release initial (Some seed) entropy2 = Ok g2 /\
    simulate nrounds g1 = (Ok s1, g1') /\
    simulate nrounds g2 = (Ok s2, g2') /\
    length (rounds s1) = Z.to_nat nrounds /\
    rounds s1 = rounds s2 /\
    s1 = s2.
Proof.
  intros Hv Hr.
  pose proof (init_ok _ _ _ _ (Some seed) entropy1 Hv) as E1.
  pose proof (init_ok _ _ _ _ (Some seed) entropy2 Hv) as E2.
  destruct (init_wf _ _ _ _ _ _ _ E1) as (Hg & _).
  set (g := {| stages := nstages |}) in *.
  destruct (simulate_ok nrounds g (wf_shaped g Hg) Hr) as (s & E & _ & Eh & _).
  exists g, g, s, s, (after_rounds (Z.to_nat nrounds) g),
    (after_rounds (Z.to_nat nrounds) g).
  repeat split; try assumption.
  rewrite Eh. apply history_from_length.
Qed.

Lemma seeded_runs_agree_witness :
  exists g1 g2 s g1' g2',
    @__init__ lcg 1 6 4 3 (Some 7) 11 = Ok g1 /\
    @__init__ lcg 1 6 4 3 (Some 7) 22 = Ok g2 /\
    simulate 10 g1 = (Ok s, g1') /\ simulate 10 g2 = (Ok s, g2').
Proof.
  destruct (@seeded_runs_agree lcg 1 6 4 3 7 10 11 22)
    as (g1 & g2 & s1 & s2 & g1' & g2' & E1 & E2 & S1 & S2 & _ & _ & Es).
  - unfold valid_config. lia.
  - lia.
  - subst s2. exists g1, g2, s1, g1', g2'. repeat split; assumption.
Defined.

(** ** Replications *)

(** The loop of [main] appends, for every replication in turn, the summary
    of a fresh object seeded for that replication. *)
Lemma run_replications_eq {RS : RandomSource} (args : Args) (entropy : Z -> Z)
    (n i : nat) (acc : list SimulationSummary) :
  valid_args args ->
  exists sums,
    run_replications args entropy (map Z.of_nat (seq i n)) acc = Ok (acc ++ sums) /\
    length sums = n /\
    forall j, (j < n)%nat ->
      exists g s,
        sums !! j = Some s /\
        __init__ (arg_stages args) (arg_die_sides args) (arg_release_rate args)
          (arg_initial_buffer args)
          (replication_seed args (Z.of_nat (i + j))) (entropy (Z.of_nat (i + j))) = Ok g /\
        fst (simulate (arg_rounds args) g) = Ok s.
Proof.
  intros (Hv & Hr). revert i acc.
  induction n as [| n IH]; intros i acc.
  - exists []. simpl. rewrite app_nil_r. repeat split. intros j Hj. lia.
  - simpl. fold (replication_seed args (Z.of_nat i)).
    pose proof (init_ok _ _ _ _ (replication_seed args (Z.of_nat i))
                  (entropy (Z.of_nat i)) Hv) as Einit.
    destruct (init_wf _ _ _ _ _ _ _ Einit) as (Hg & _).
    rewrite Einit. simpl mbind at 1.
    set (g := {| stages := arg_stages args |}) in *.
    destruct (simulate_ok (arg_rounds args) g (wf_shaped g Hg) Hr) as (s & E & _).
    unfold mbind at 1, outcome_bind at 1. rewrite E. simpl fst.
    destruct (IH (S i) (acc ++ [s])) as (sums & Erun & Hlen & Hsums).
    exists (s :: sums). rewrite Erun, <- app_assoc. simpl.
    repeat split; [now rewrite Hlen |].
    intros [| j] Hj.
    + exists g, s. rewrite Nat.add_0_r. repeat split; [exact Einit |].
      now rewrite E.
    + destruct (Hsums j) as (g' & s' & E1 & E2 & E3); [lia |].
      exists g', s'. replace (i + S j)%nat with (S i + j)%nat by lia.
      repeat split; assumption.
Qed.

(** C4.  With a base seed, replication [k] (1-based) of a run of [main] is
    a fresh object seeded [base + (k - 1)]: its summary, history included,
    is that of a standalone run constructed with that seed and the same
    parameters.  This holds for any number of replications, so replication
    1 equals the standalone run seeded [base] whether [main] runs one
    replication or many. *)
Theorem replication_matches_standalone {RS : RandomSource} (args : Args)
    (base : Z) (entropy : Z -> Z) (entropy' : Z) (k : Z) :
  valid_args args ->
  arg_seed args = Some base ->
  1 <= k <= arg_replications args ->
  exists summaries g s,
    run_replications args entropy (range (arg_replications args)) [] = Ok summaries /\
    length summaries = Z.to_nat (arg_replications args) /\
    summaries !! Z.to_nat (k - 1) = Some s /\
    __init__ (arg_stages args) (arg_die_sides args) (arg_release_rate args)
      (arg_initial_buffer args) (Some (base + (k - 1))) entropy' = Ok g /\
    fst (simulate (arg_rounds args) g) = Ok s /\
    length (rounds s) = Z.to_nat (arg_rounds args) /\
    (k = 1 ->
     __init__ (arg_stages args) (arg_die_sides args) (arg_release_rate args)
       (arg_initial_buffer args) (Some base) entropy' = Ok g).
Proof.
  intros Hargs Hseed Hk.
  destruct (run_replications_eq args entropy (Z.to_nat (arg_replications args)) 0 []
              Hargs) as (sums & Erun & Hlen & Hsums).
  destruct (Hsums (Z.to_nat (k - 1))) as (g & s & Es & Einit & Esim); [lia |].
  simpl in Einit. rewrite Z2Nat.id in Einit by lia.
  unfold replication_seed in Einit. rewrite Hseed in Einit.
  destruct Hargs as (Hv & Hr).
  rewrite (init_ok _ _ _ _ _ _ Hv) in Einit.
  exists sums, g, s. unfold range. simpl in Erun.
  split; [exact Erun |]. split; [exact Hlen |]. split; [exact Es |].
  split; [rewrite (init_ok _ _ _ _ _ _ Hv); exact Einit |].
  split; [exact Esim |]. split.
  - inversion Einit as [Eg].
    assert (Hs : shaped g).
    { rewrite <- Eg. unfold shaped. simpl. destruct Hv as (? & ? & ? & ?).
      repeat split; try lia. now rewrite length_map, range_length. }
    destruct (simulate_ok (arg_rounds args) g Hs Hr) as (s' & E & _ & Eh & _).
    rewrite E in Esim. simpl in Esim. inversion Esim; subst s'.
    rewrite Eh. apply history_from_length.
  - intros ->. rewrite (init_ok _ _ _ _ _ _ Hv).
    rewrite <- Einit. simpl. now rewrite Z.add_0_r.
Qed.

Lemma replication_matches_standalone_witness :
  exists (summaries : list SimulationSummary) (g : @DiceGame lcg) s,
    @run_replications lcg demo_args (fun _ => 0) (range 3) [] = Ok summaries /\
    summaries !! 1%nat = Some s /\
    @__init__ lcg 5 6 4 3 (Some 101) 0 = Ok g /\
    fst (simulate 20 g) = Ok s.
Proof.
  destruct (@replication_matches_standalone lcg demo_args 100 (fun _ => 0) 0 2)
    as (summaries & g & s & E1 & _ & E2 & E3 & E4 & _).
  - unfold valid_args, valid_config, demo_args; simpl. lia.
  - reflexivity.
  - simpl. lia.
  - exists summaries, g, s. repeat split; assumption.
Defined.

(** ** Statistics *)

Lemma Q2R_inject_Z z : Q2R (inject_Z z) = IZR z.
Proof. unfold Q2R, inject_Z. simpl. now rewrite Rinv_1, Rmult_1_r. Qed.

Lemma Q2R_sumQ xs : Q2R (sumQ xs) = sumR (map Q2R xs).
Proof.
  induction xs as [| x xs IH]; simpl.
  - apply RMicromega.Q2R_0.
  - now rewrite Q2R_plus, IH.
Qed.

Lemma Q2R_lenQ {A} (xs : list A) : Q2R (lenQ xs) = INR (length xs).
Proof. unfold lenQ. now rewrite Q2R_inject_Z, INR_IZR_INZ. Qed.

Lemma lenQ_pos {A} (xs : list A) : xs <> [] -> (0 < lenQ xs)%Q.
Proof.
  destruct xs as [| x xs]; [congruence |]. intros _.
  unfold lenQ, Qlt. simpl. lia.
Qed.

Lemma lenQ_nonzero {A} (xs : list A) : xs <> [] -> ~ (lenQ xs == 0)%Q.
Proof.
  intros H E. pose proof (lenQ_pos xs H) as Hp. rewrite E in Hp.
  now apply Qlt_irrefl in Hp.
Qed.

Lemma intsQ_length xs : length (intsQ xs) = length xs.
Proof. apply length_map. Qed.

Lemma map_Q2R_intsQ xs : map Q2R (intsQ xs) = map IZR xs.
Proof.
  unfold intsQ. rewrite map_map. apply map_ext. intros; apply Q2R_inject_Z.
Qed.

(** The library's [pstdev] of an integer series is the population
    standard deviation. *)
Lemma pstdev_population xs :
  xs <> [] -> pstdev (intsQ xs) = Ok (population_stdev xs).
Proof.
  intros H. pose proof (intsQ_nonempty xs H) as HQ.
  unfold pstdev, pvariance. rewrite (mean_ok _ HQ). simpl.
  f_equal. unfold population_stdev. f_equal.
  rewrite Q2R_div by (apply lenQ_nonzero; exact HQ).
  rewrite Q2R_lenQ, intsQ_length. f_equal.
  rewrite Q2R_sumQ. f_equal.
  set (c := (sumQ (intsQ xs) / lenQ (intsQ xs))%Q).
  assert (Ec : Q2R c = (sumR (map IZR xs) / INR (length xs))%R).
  { subst c. rewrite Q2R_div by (apply lenQ_nonzero; exact HQ).
    now rewrite Q2R_sumQ, map_Q2R_intsQ, Q2R_lenQ, intsQ_length. }
  unfold intsQ. rewrite !map_map. apply map_ext. intros x.
  now rewrite Q2R_mult, Q2R_minus, Q2R_inject_Z, Ec.
Qed.

Lemma population_stdev_single x : population_stdev [x] = 0%R.
Proof.
  unfold population_stdev. simpl.
  replace ((IZR x - (IZR x + 0) / 1) * (IZR x - (IZR x + 0) / 1) + 0)%R with 0%R
    by (field).
  unfold Rdiv. rewrite Rmult_0_l. apply sqrt_0.
Qed.

(** What [simulate] stores, guard included, is the population standard
    deviation of the series. *)
Lemma stdev_field_population xs :
  xs <> [] -> stdev_field xs = Ok (population_stdev xs).
Proof.
  intros H. unfold stdev_field.
  destruct (1 <? length xs)%nat eqn:E.
  - now apply pstdev_population.
  - apply Nat.ltb_ge in E.
    destruct xs as [| x [| y xs]]; [congruence | | simpl in E; lia].
    now rewrite population_stdev_single.
Qed.

Lemma population_stdev_2446 : population_stdev [2; 4; 4; 6] = sqrt 2.
Proof.
  unfold population_stdev. simpl. f_equal. field.
Qed.

Lemma sample_stdev_2446 : sample_stdev [2; 4; 4; 6] <> sqrt 2.
Proof.
  unfold sample_stdev. simpl. intros E.
  apply sqrt_inj in E; [| | lra].
  - lra.
  - lra.
Qed.

(** C5.  For [rounds >= 1] the [throughput_stdev] of the summary is the
    population standard deviation (sum of squared deviations over [N], not
    [N - 1]) of the per-round throughput, and it is 0 when [rounds = 1].
    On a history with throughput 2, 4, 4, 6 the mean is 4 and the standard
    deviation is [sqrt 2], which the [N - 1] formula does not give. *)
Theorem throughput_stdev_is_population {RS : RandomSource} (g : DiceGame)
    (nrounds n : Z) :
  wf g ->
  1 <= nrounds ->
  (exists s g',
     simulate nrounds g = (Ok s, g') /\
     length (rounds s) = Z.to_nat nrounds /\
     throughput_stdev s = population_stdev (map throughput (rounds s)) /\
     (nrounds = 1 -> throughput_stdev s = 0%R)) /\
  (exists s,
     summarize n 4 synthetic_history = Ok s /\
     map throughput (rounds s) = [2; 4; 4; 6] /\
     (avg_throughput s == 4)%Q /\
     throughput_stdev s = sqrt 2 /\
     throughput_stdev s <> sample_stdev [2; 4; 4; 6]).
Proof.
  intros Hg Hr. split.
  - destruct (simulate_ok nrounds g (wf_shaped g Hg) Hr)
      as (s & E & _ & Eh & _ & Esd & _).
    assert (Hlen : length (rounds s) = Z.to_nat nrounds)
      by (rewrite Eh; apply history_from_length).
    assert (Hne : map throughput (rounds s) <> []).
    { intros E0. apply (f_equal length) in E0. rewrite length_map, Hlen in E0.
      simpl in E0. lia. }
    rewrite (stdev_field_population _ Hne) in Esd. inversion Esd as [Esd'].
    exists s, (after_rounds (Z.to_nat nrounds) g).
    split; [exact E |]. split; [exact Hlen |]. split; [now symmetry |].
    intros ->. change (Z.to_nat 1) with 1%nat in Hlen.
    rewrite <- Esd'.
    destruct (rounds s) as [| r [| r' rs]]; try discriminate.
    apply population_stdev_single.
  - destruct (summarize_ok n 4 synthetic_history) as (s & E & Eh & Em & Esd & _).
    + discriminate.
    + repeat constructor.
    + exists s. rewrite Eh. simpl map in *.
      rewrite stdev_field_population in Esd by discriminate.
      inversion Esd as [Esd']. inversion Em as [Em'].
      split; [exact E |]. split; [reflexivity |]. split; [reflexivity |].
      split; [apply population_stdev_2446 |].
      rewrite population_stdev_2446. intros E2. symmetry in E2.
      now apply sample_stdev_2446.
Qed.

Lemma throughput_stdev_is_population_witness :
  exists s g', simulate 1 demo_game = (Ok s, g') /\ throughput_stdev s = 0%R.
Proof.
  destruct (@throughput_stdev_is_population lcg demo_game 1 3 demo_game_wf)
    as ((s & g' & E & _ & _ & Z1) & _).
  - lia.
  - exists s, g'. split; [exact E | apply Z1; reflexivity].
Defined.

(** ** The replication aggregate *)

Lemma simulated_history_nonneg s :
  simulated s -> Forall (fun r => 0 <= throughput r) (rounds s).
Proof.
  intros (RS & g & g' & nrounds & lawful & Hg & E).
  destruct (Z.le_gt_cases 1 nrounds) as [Hr | Hr].
  - destruct (simulate_ok nrounds g (wf_shaped g Hg) Hr) as (s' & E' & _ & Eh & _).
    rewrite E' in E. inversion E; subst s'. rewrite Eh.
    apply (history_throughput_nonneg lawful _ 0 g Hg).
  - rewrite simulate_too_few in E by lia. discriminate.
Qed.

(** ** Rounding to a float *)

Lemma round_half_even_floor n d :
  0 <= n -> 0 < d -> n / d <= round_half_even n d.
Proof.
  intros Hn Hd. unfold round_half_even.
  destruct (2 * (n mod d) <? d); [lia |].
  destruct (d <? 2 * (n mod d)); [lia |].
  destruct (Z.even (n / d)); lia.
Qed.

Lemma round_half_even_nonneg n d : 0 <= n -> 0 < d -> 0 <= round_half_even n d.
Proof.
  intros Hn Hd. pose proof (round_half_even_floor n d Hn Hd).
  pose proof (Z.div_pos n d Hn Hd). lia.
Qed.

Lemma pow2Q_pos e : (0 < pow2Q e)%Q.
Proof.
  unfold pow2Q. destruct (0 <=? e) eqn:E.
  - change 0%Q with (inject_Z 0). rewrite <- Zlt_Qlt.
    apply Z.pow_pos_nonneg; [lia | now apply Z.leb_le].
  - apply Qinv_lt_0_compat. change 0%Q with (inject_Z 0). rewrite <- Zlt_Qlt.
    apply Z.pow_pos_nonneg; [lia |]. apply Z.leb_gt in E. lia.
Qed.

Lemma Qnum_nonneg q : (0 <= q)%Q <-> 0 <= Qnum q.
Proof. unfold Qle. simpl. lia. Qed.

(** The significand that [binary64] rounds to is never negative. *)
Lemma binary64_significand_nonneg n d e :
  0 <= n -> 0 < d ->
  0 <= (if 0 <=? e then round_half_even n (d * 2 ^ e)
        else round_half_even (n * 2 ^ (- e)) d).
Proof.
  intros Hn Hd. destruct (0 <=? e) eqn:E.
  - apply round_half_even_nonneg; [exact Hn |].
    apply Z.mul_pos_pos; [exact Hd |].
    apply Z.pow_pos_nonneg; [lia | now apply Z.leb_le].
  - apply round_half_even_nonneg; [| exact Hd].
    apply Z.mul_nonneg_nonneg; [exact Hn |]. apply Z.pow_nonneg. lia.
Qed.

(** Rounding keeps the sign of a nonnegative number. *)
Lemma binary64_nonneg q x : (0 <= q)%Q -> binary64 q = FFinite x -> (0 <= x)%Q.
Proof.
  intros Hq. apply Qnum_nonneg in Hq. unfold binary64.
  destruct (Z.abs (Qnum q) =? 0); [intros E; injection E as <-; apply Qle_refl |].
  destruct (Z.ltb_spec (Qnum q) 0) as [? | _]; [lia |].
  set (e := Z.max _ _). set (m := if 0 <=? e then _ else _).
  destruct (2 ^ 1024 <=? m * 2 ^ e); [discriminate |].
  intros E; injection E as <-.
  apply Qmult_le_0_compat; [| apply Qlt_le_weak, pow2Q_pos].
  change 0%Q with (inject_Z 0). rewrite <- Zle_Qle.
  subst m. apply binary64_significand_nonneg; lia.
Qed.

(** A positive [int] does not convert to zero. *)
Lemma int_to_float_pos n x : 0 < n -> int_to_float n = Ok x -> (0 < x)%Q.
Proof.
  intros Hn. unfold int_to_float, binary64. simpl Qnum. simpl Qden.
  rewrite (Z.abs_eq n) by lia.
  destruct (Z.eqb_spec n 0) as [? | _]; [lia |].
  destruct (Z.ltb_spec n 0) as [? | _]; [lia |].
  pose proof (Z.log2_spec n Hn) as (Hlo & _).
  pose proof (Z.log2_nonneg n) as Hl0.
  assert (Hil : ilog2_ratio n 1 = Z.log2 n).
  { unfold ilog2_ratio. change (Z.log2 1) with 0. rewrite Z.sub_0_r.
    destruct (Z.leb_spec 0 (Z.log2 n)); [| lia].
    destruct (Z.ltb_spec n (1 * 2 ^ Z.log2 n)); [lia | reflexivity]. }
  rewrite Hil.
  set (e := Z.max (Z.log2 n - 52) (-1074)).
  assert (He : e = Z.log2 n - 52) by (subst e; lia).
  set (m := if 0 <=? e then _ else _).
  assert (Hm : 1 <= m).
  { subst m. destruct (Z.leb_spec 0 e) as [H0 | H0].
    - assert (Hpe : 0 < 2 ^ e) by (apply Z.pow_pos_nonneg; lia).
      assert (Hle : 2 ^ e <= n).
      { transitivity (2 ^ Z.log2 n); [| exact Hlo].
        apply Z.pow_le_mono_r; lia. }
      pose proof (round_half_even_floor n (1 * 2 ^ e)) as Hf.
      rewrite Z.mul_1_l in *.
      assert (1 <= n / 2 ^ e) by (apply Z.div_le_lower_bound; lia).
      lia.
    - assert (Hpe : 0 < 2 ^ (- e)) by (apply Z.pow_pos_nonneg; lia).
      pose proof (round_half_even_floor (n * 2 ^ (- e)) 1) as Hf.
      rewrite Z.div_1_r in Hf. nia. }
  destruct (2 ^ 1024 <=? m * 2 ^ e); [discriminate |].
  intros E; injection E as <-.
  apply Qmult_lt_0_compat; [| apply pow2Q_pos].
  change 0%Q with (inject_Z 0). rewrite <- Zlt_Qlt. lia.
Qed.

(** ** The means and the division, as Python computes them *)

Lemma int_true_divide_errors a b e :
  b <> 0 -> int_true_divide a b = Raise e -> exists msg, e = OverflowError msg.
Proof.
  intros Hb. unfold int_true_divide.
  destruct (Z.eqb_spec b 0); [contradiction |].
  destruct (binary64 _); intros E; inversion E; eauto.
Qed.

Lemma int_to_float_errors n e :
  int_to_float n = Raise e -> exists msg, e = OverflowError msg.
Proof.
  unfold int_to_float. destruct (binary64 _); intros E; inversion E; eauto.
Qed.

Lemma to_float_errors a e :
  to_float a = Raise e -> exists msg, e = OverflowError msg.
Proof. destruct a; simpl; [apply int_to_float_errors | discriminate]. Qed.

(** On data, [statistics.mean] can only fail by overflow. *)
Lemma py_mean_errors data e :
  data <> [] -> py_mean data = Raise e -> exists msg, e = OverflowError msg.
Proof.
  destruct data as [| a data]; [congruence |]. intros _. unfold py_mean.
  set (value := Qred _).
  destruct (forallb py_is_int (a :: data) && (Z.pos (Qden value) =? 1));
    [discriminate |].
  destruct (int_true_divide (Qnum value) (Z.pos (Qden value))) as [x | e'] eqn:E;
    simpl; [discriminate |].
  intros E'. injection E' as <-. eapply int_true_divide_errors; [| exact E]. lia.
Qed.

Lemma sumQ_nonneg xs : Forall (Qle 0) xs -> (0 <= sumQ xs)%Q.
Proof.
  induction 1 as [| x xs Hx _ IH]; simpl.
  - apply Qle_refl.
  - replace 0%Q with (0 + 0)%Q by reflexivity. now apply Qplus_le_compat.
Qed.

(** The mean of nonnegative numbers is nonnegative, rounded or not. *)
Lemma py_mean_nonneg data t :
  Forall (fun a => (0 <= py_value a)%Q) data ->
  py_mean data = Ok t ->
  (0 <= py_value t)%Q.
Proof.
  intros HF. destruct data as [| a data]; [discriminate |]. unfold py_mean.
  set (value := Qred _).
  assert (Hv : (0 <= value)%Q).
  { subst value. rewrite Qred_correct.
    apply Qle_shift_div_l; [apply lenQ_pos; discriminate |].
    rewrite Qmult_0_l. apply sumQ_nonneg. now rewrite Forall_fmap. }
  destruct (forallb py_is_int (a :: data) && (Z.pos (Qden value) =? 1)).
  - intros E; injection E as <-. simpl.
    change 0%Q with (inject_Z 0). rewrite <- Zle_Qle. now apply Qnum_nonneg.
  - unfold int_true_divide. simpl (Z.pos _ =? 0).
    destruct (binary64 _) as [x | |] eqn:Eb; simpl; try discriminate.
    intros E; injection E as <-. simpl.
    apply (binary64_nonneg (inject_Z (Qnum value) / inject_Z (Z.pos (Qden value))) x);
      [| exact Eb].
    apply Qle_shift_div_l.
    + change 0%Q with (inject_Z 0). rewrite <- Zlt_Qlt. lia.
    + rewrite Qmult_0_l. change 0%Q with (inject_Z 0). rewrite <- Zle_Qle.
      now apply Qnum_nonneg.
Qed.

Lemma py_gt0_zero t : (py_value t == 0)%Q -> py_gt0 t = false.
Proof.
  destruct t as [n | q]; simpl; intros E.
  - assert (n = 0) by (unfold Qeq in E; simpl in E; lia). subst. reflexivity.
  - assert (H : Qle_bool q 0 = true) by (apply Qle_bool_iff; rewrite E; apply Qle_refl).
    now rewrite H.
Qed.

Lemma py_gt0_positive t :
  (0 <= py_value t)%Q -> ~ (py_value t == 0)%Q -> py_gt0 t = true.
Proof.
  destruct t as [n | q]; simpl; intros H0 Hne.
  - apply Z.ltb_lt. change 0%Q with (inject_Z 0) in H0. rewrite <- Zle_Qle in H0.
    assert (n <> 0) by (intros ->; now apply Hne). lia.
  - destruct (Qle_bool q 0) eqn:E; [| reflexivity].
    apply Qle_bool_iff in E. exfalso. apply Hne. now apply Qle_antisym.
Qed.

Lemma py_gt0_value t : py_gt0 t = true -> (0 < py_value t)%Q.
Proof.
  destruct t as [n | q]; simpl; intros H.
  - change 0%Q with (inject_Z 0). rewrite <- Zlt_Qlt. now apply Z.ltb_lt.
  - apply Qnot_le_lt. intros Hle. apply Qle_bool_iff in Hle.
    rewrite Hle in H. discriminate.
Qed.

(** Behind the guard the division cannot divide by zero; overflow is
    all that is left. *)
Lemma py_truediv_guarded w t e :
  py_gt0 t = true -> py_truediv w t = Raise e -> exists msg, e = OverflowError msg.
Proof.
  intros Ht. pose proof (py_gt0_value t Ht) as Hpos.
  assert (Hconv : forall y, to_float t = Ok y -> Qeq_bool y 0 = false).
  { intros y Ey. destruct (Qeq_bool y 0) eqn:E0; [| reflexivity].
    apply Qeq_bool_eq in E0. exfalso.
    destruct t as [n | q]; simpl in *.
    - assert (Hn : 0 < n) by now apply Z.ltb_lt.
      pose proof (int_to_float_pos n y Hn Ey) as Hy.
      rewrite E0 in Hy. now apply Qlt_irrefl in Hy.
    - injection Ey as <-. rewrite E0 in Hpos. now apply Qlt_irrefl in Hpos. }
  assert (Hmixed :
    (x ← to_float w; y ← to_float t;
     if Qeq_bool y 0 then Raise (ZeroDivisionError "float division by zero")
     else Ok (binary64 (x / y))) = Raise e ->
    exists msg, e = OverflowError msg).
  { destruct (to_float w) as [x | e1] eqn:Ew; simpl.
    - destruct (to_float t) as [y | e2] eqn:Et; simpl.
      + rewrite (Hconv y eq_refl). discriminate.
      + intros E; injection E as <-. now apply (to_float_errors t).
    - intros E; injection E as <-. now apply (to_float_errors w). }
  destruct w as [a | qa], t as [b | qb]; try exact Hmixed.
  unfold py_truediv.
  destruct (int_true_divide a b) as [x | e1] eqn:E; simpl; [discriminate |].
  intros E'; injection E' as <-.
  eapply int_true_divide_errors; [| exact E].
  simpl in Ht. apply Z.ltb_lt in Ht. lia.
Qed.

Lemma collect_Forall2 {A B} (f : A -> outcome B) xs ys :
  collect f xs = Ok ys <-> Forall2 (fun x y => f x = Ok y) xs ys.
Proof.
  revert ys. induction xs as [| x xs IH]; intros ys; simpl.
  - split; [intros E; injection E as <-; constructor | intros H; now inversion H].
  - split.
    + destruct (f x) as [y | e] eqn:Ef; simpl; [| discriminate].
      destruct (collect f xs) as [ys' | e] eqn:Ec; simpl; [| discriminate].
      intros E; injection E as <-. constructor; [exact Ef | now apply IH].
    + intros H. inversion H as [| ? y ? ys' Ef Hrest]; subst.
      rewrite Ef. simpl. apply IH in Hrest. rewrite Hrest. reflexivity.
Qed.

(** C7, as the code has it.  The cycle time starts from the averages
    stored in a non-empty collection of summaries produced by [simulate].
    It never divides by zero and never lacks data: the one error the two
    overall means and the division can raise is [OverflowError].  When
    the overall means are computed, the overall mean throughput is not
    negative; if it is exactly 0 the result is the NaN sentinel, and
    otherwise it is Python's quotient of overall mean WIP by overall mean
    throughput. *)
Theorem cycle_time_guarded (summaries : list SimulationSummary)
    (avg_throughputs avg_wips : list pynum) :
  summaries <> [] ->
  Forall simulated summaries ->
  Forall2 (fun s t => py_avg_throughput s = Ok t) summaries avg_throughputs ->
  Forall2 (fun s w => py_avg_wip s = Ok w) summaries avg_wips ->
  py_cycle_time summaries = cycle_time_computation avg_throughputs avg_wips /\
  (forall e, cycle_time_computation avg_throughputs avg_wips = Raise e ->
     exists msg, e = OverflowError msg) /\
  (forall t w, py_mean avg_throughputs = Ok t -> py_mean avg_wips = Ok w ->
     (0 <= py_value t)%Q /\
     ((py_value t == 0)%Q ->
      cycle_time_computation avg_throughputs avg_wips = Ok FNan) /\
     (~ (py_value t == 0)%Q ->
      cycle_time_computation avg_throughputs avg_wips = py_truediv w t)).
Proof.
  intros Hne Hsim Ht Hw.
  assert (Hts : avg_throughputs <> []).
  { intros ->. inversion Ht. congruence. }
  assert (Hws : avg_wips <> []).
  { intros ->. inversion Hw. congruence. }
  assert (Hnn : Forall (fun a => (0 <= py_value a)%Q) avg_throughputs).
  { apply Forall_forall. intros t Hin.
    apply list_elem_of_lookup in Hin. destruct Hin as (i & Hi).
    destruct (Forall2_lookup_r _ _ _ _ _ Ht Hi) as (s & Hs & Est).
    eapply py_mean_nonneg; [| exact Est].
    rewrite !Forall_fmap.
    assert (Hss : simulated s).
    { rewrite List.Forall_forall in Hsim. apply Hsim.
      apply list_elem_of_In, list_elem_of_lookup. eauto. }
    eapply Forall_impl; [exact (simulated_history_nonneg s Hss) |].
    intros r Hr. simpl. unfold compose. simpl.
    change 0%Q with (inject_Z 0). rewrite <- Zle_Qle. exact Hr. }
  split; [| split].
  - unfold py_cycle_time.
    rewrite (proj2 (collect_Forall2 _ _ _) Ht). simpl.
    rewrite (proj2 (collect_Forall2 _ _ _) Hw). reflexivity.
  - intros e. unfold cycle_time_computation.
    destruct (py_mean avg_throughputs) as [t | e1] eqn:Et; simpl.
    + destruct (py_mean avg_wips) as [w | e2] eqn:Ew; simpl.
      * destruct (py_gt0 t) eqn:Eg; [now apply py_truediv_guarded | discriminate].
      * intros E; injection E as <-. now apply (py_mean_errors avg_wips).
    + intros E; injection E as <-. now apply (py_mean_errors avg_throughputs).
  - intros t w Et Ew.
    pose proof (py_mean_nonneg _ _ Hnn Et) as H0.
    split; [exact H0 |]. unfold cycle_time_computation. rewrite Et, Ew. simpl.
    split; intros H.
    + now rewrite (py_gt0_zero t H).
    + now rewrite (py_gt0_positive t H0 H).
Qed.
Lemma cycle_time_guarded_witness :
  exists s, fst (simulate 2 demo_game) = Ok s /\
            forall e, py_cycle_time [s] = Raise e -> exists msg, e = OverflowError msg.
Proof.
  destruct (simulate_ok 2 demo_game (wf_shaped _ demo_game_wf)) as (s & E & _ & Eh & _);
    [lia |].
  exists s. split; [now rewrite E |].
  edestruct (cycle_time_guarded [s]) as (Ec & Herr & _).
  - discriminate.
  - constructor; [| constructor].
    exists lcg, demo_game, (after_rounds (Z.to_nat 2) demo_game), 2.
    split; [exact lcg_in_range |]. split; [exact demo_game_wf | exact E].
  - constructor; [| constructor].
    unfold py_avg_throughput. rewrite Eh. cbv. reflexivity.
  - constructor; [| constructor].
    unfold py_avg_wip. rewrite Eh. cbv. reflexivity.
  - rewrite Ec. exact Herr.
Defined.

(** The spec's reading of C7 has the computation never crash.  One stage
    with [initial_buffer = 10^400] runs one round: the averages are the
    ints 1 and [10^400 + 3], so are the overall means, and their true
    division in the guarded expression raises [OverflowError]. *)
Lemma cycle_time_overflows :
  exists g s g',
    @__init__ lcg 1 6 4 (10 ^ 400) (Some 7) 0 = Ok g /\
    simulate 1 g = (Ok s, g') /\
    py_avg_throughput s = Ok (PInt 1) /\
    py_avg_wip s = Ok (PInt (10 ^ 400 + 3)) /\
    cycle_time_computation [PInt 1] [PInt (10 ^ 400 + 3)]
    = Raise (OverflowError "integer division result too large for a float") /\
    py_cycle_time [s]
    = Raise (OverflowError "integer division result too large for a float").
Proof.
  assert (Hv : valid_config 1 6 4 (10 ^ 400)).
  { unfold valid_config. repeat split; try lia; apply Z.pow_nonneg; lia. }
  pose proof (@init_ok lcg 1 6 4 (10 ^ 400) (Some 7) 0 Hv) as Einit.
  destruct (init_wf _ _ _ _ _ _ _ Einit) as (Hg & _).
  set (g := {| stages := 1 |}) in *.
  destruct (simulate_ok 1 g (wf_shaped g Hg)) as (s & E & _ & Eh & _); [lia |].
  exists g, s, (after_rounds (Z.to_nat 1) g).
  split; [exact Einit |]. split; [exact E |].
  unfold py_cycle_time, py_avg_throughput, py_avg_wip. simpl collect.
  rewrite Eh.
  repeat match goal with |- _ /\ _ => split end; vm_compute; reflexivity.
Qed.



(** ** Further properties of a run *)

Lemma chain_stages bufs rolls (k : nat) incoming :
  length bufs = length rolls ->
  map stage (chain (Z.of_nat k) bufs rolls incoming)
  = map Z.of_nat (seq k (length bufs)).
Proof.
  revert rolls k incoming.
  induction bufs as [| b bufs IH]; intros [| r rolls] k incoming Hl;
    simpl in Hl; try discriminate; [reflexivity |].
  simpl. f_equal.
  replace (Z.of_nat k + 1) with (Z.of_nat (S k)) by lia.
  apply IH. lia.
Qed.

Section RunFacts.
Context {RS : RandomSource}.

Lemma round_outs_stages (g : DiceGame) :
  shaped g -> map stage (round_outs g) = range (stages g).
Proof.
  intros (_ & _ & Hl). unfold round_outs, range.
  rewrite (chain_stages _ _ 0)
    by now rewrite released_length, round_rolls_length.
  now rewrite released_length, Hl.
Qed.

Lemma history_round_indices k i (g : DiceGame) :
  map round_index (history_from i k g)
  = map (fun j => i + Z.of_nat j + 1) (seq 0 k).
Proof.
  revert i g. induction k as [| k IH]; intros i g; simpl; [reflexivity |].
  f_equal; [lia |]. rewrite IH. rewrite <- seq_shift, map_map.
  apply map_ext. intros j. lia.
Qed.

Lemma history_stages k i (g : DiceGame) :
  shaped g ->
  Forall (fun r => map stage (stage_outcomes r) = range (stages g)) (history_from i k g).
Proof.
  revert i g. induction k as [| k IH]; intros i g Hg; simpl; constructor.
  - now apply round_outs_stages.
  - apply (IH (i + 1) (round_next g)). now apply shaped_round_next.
Qed.

Lemma round_next_conservation (g : DiceGame) :
  shaped g ->
  sumZ (buffers (round_next g))
  = sumZ (buffers g) + release_rate g - last_processed 0 (round_outs g).
Proof.
  intros (Hn & _ & Hl). simpl. unfold round_outs.
  rewrite chain_conservation by now rewrite released_length, round_rolls_length.
  rewrite sumZ_released; [lia |].
  intros E. rewrite E in Hl. simpl in Hl. lia.
Qed.

Lemma release_rate_after_rounds k (g : DiceGame) :
  release_rate (after_rounds k g) = release_rate g.
Proof. revert g. induction k as [| k IH]; intros g; simpl; [| rewrite IH]; reflexivity. Qed.

Lemma die_sides_after_rounds k (g : DiceGame) :
  die_sides (after_rounds k g) = die_sides g.
Proof. revert g. induction k as [| k IH]; intros g; simpl; [| rewrite IH]; reflexivity. Qed.

Lemma after_rounds_conservation k i (g : DiceGame) :
  shaped g ->
  sumZ (buffers (after_rounds k g))
  = sumZ (buffers g) + Z.of_nat k * release_rate g
    - sumZ (map throughput (history_from i k g)).
Proof.
  revert i g. induction k as [| k IH]; intros i g Hg.
  - simpl. lia.
  - simpl after_rounds. simpl history_from. simpl map.
    change (sumZ (?x :: ?l)) with (x + sumZ l).
    rewrite (IH (i + 1) (round_next g)) by now apply shaped_round_next.
    rewrite round_next_conservation by exact Hg. simpl. lia.
Qed.

Lemma after_rounds_nonneg k (g : DiceGame) :
  (0 < k)%nat -> Forall (Z.le 0) (buffers (after_rounds k g)).
Proof.
  revert g. induction k as [| k IH]; intros g Hk; [lia |].
  simpl. destruct k as [| k].
  - simpl. apply chain_buffers_nonneg.
  - apply IH. lia.
Qed.

Lemma sumZ_nonneg xs : Forall (Z.le 0) xs -> 0 <= sumZ xs.
Proof.
  induction 1 as [| x xs Hx _ IH]; [reflexivity |].
  change (sumZ (x :: xs)) with (x + sumZ xs). lia.
Qed.

End RunFacts.

(** X1.  Material is conserved over a whole run: after [simulate] the
    buffers hold what they held before plus [rounds] releases minus the
    total throughput, so the line never puts out more than it was given. *)
Theorem simulate_conserves_material {RS : RandomSource} (g : DiceGame) (nrounds : Z) :
  shaped g ->
  1 <= nrounds ->
  exists s g',
    simulate nrounds g = (Ok s, g') /\
    sumZ (buffers g') = sumZ (buffers g) + nrounds * release_rate g - total_throughput s /\
    total_throughput s <= sumZ (buffers g) + nrounds * release_rate g.
Proof.
  intros Hg Hr.
  destruct (simulate_ok nrounds g Hg Hr) as (s & E & _ & Eh & _ & _ & _ & Et).
  exists s, (after_rounds (Z.to_nat nrounds) g).
  split; [exact E |].
  pose proof (after_rounds_conservation (Z.to_nat nrounds) 0 g Hg) as Hc.
  rewrite Z2Nat.id in Hc by lia. rewrite <- Eh, <- Et in Hc.
  split; [exact Hc |].
  pose proof (sumZ_nonneg _ (after_rounds_nonneg (Z.to_nat nrounds) g ltac:(lia))).
  lia.
Qed.

Lemma simulate_conserves_material_witness :
  exists s g', simulate 5 demo_game = (Ok s, g') /\
               sumZ (buffers g') = 9 + 5 * 4 - total_throughput s.
Proof.
  destruct (simulate_conserves_material demo_game 5) as (s & g' & E & C & _).
  - exact (wf_shaped _ demo_game_wf).
  - lia.
  - exists s, g'. split; [exact E | exact C].
Defined.

(** X2.  The history of a run has [rounds] entries, numbered 1, 2, ...
    in order; every entry lists the stages 0 .. [stages]-1 in order; the
    last entry's [wip] is the sum of the buffers the run leaves. *)
Theorem simulate_history_shape {RS : RandomSource} (g : DiceGame) (nrounds : Z) :
  shaped g ->
  1 <= nrounds ->
  exists s g',
    simulate nrounds g = (Ok s, g') /\
    map round_index (rounds s) = map (fun j => Z.of_nat j + 1) (seq 0 (Z.to_nat nrounds)) /\
    Forall (fun r => map stage (stage_outcomes r) = range (stages g)) (rounds s) /\
    (exists r, last (rounds s) = Some r /\ wip r = sumZ (buffers g')).
Proof.
  intros Hg Hr.
  destruct (simulate_ok nrounds g Hg Hr) as (s & E & _ & Eh & _).
  exists s, (after_rounds (Z.to_nat nrounds) g).
  split; [exact E |]. rewrite Eh.
  split; [apply (history_round_indices _ 0) |].
  split; [now apply history_stages |].
  clear E Eh s. generalize 0 as i.
  assert (Hk : (0 < Z.to_nat nrounds)%nat) by lia.
  revert g Hg Hk. induction (Z.to_nat nrounds) as [| k IH]; intros g Hg Hk i; [lia |].
  destruct k as [| k].
  - simpl. eexists. split; reflexivity.
  - destruct (IH (round_next g) (shaped_round_next g Hg) ltac:(lia) (i + 1))
      as (r & Er & Ew).
    exists r. split; [| exact Ew].
    change (history_from i (S (S k)) g)
      with (round_record (i + 1) g :: history_from (i + 1) (S k) (round_next g)).
    remember (history_from (i + 1) (S k) (round_next g)) as h.
    destruct h as [| r' h]; [simpl in Heqh; discriminate |].
    now rewrite last_cons_cons.
Qed.

Lemma simulate_history_shape_witness :
  exists s g', simulate 2 demo_game = (Ok s, g') /\
               map round_index (rounds s) = [1; 2].
Proof.
  destruct (simulate_history_shape demo_game 2) as (s & g' & E & Hi & _).
  - exact (wf_shaped _ demo_game_wf).
  - lia.
  - exists s, g'. split; [exact E | exact Hi].
Defined.

Lemma chain_rolls (P : Z -> Prop) bufs rolls index incoming :
  Forall P rolls -> Forall (fun so => P (roll so)) (chain index bufs rolls incoming).
Proof.
  intros HP. revert bufs index incoming.
  induction HP as [| r rolls Hr _ IH]; intros [| b bufs] index incoming; simpl;
    constructor; auto.
Qed.

Lemma chain_last_bounded d bufs rolls index incoming :
  incoming <= d ->
  Forall (fun r => r <= d) rolls ->
  last_processed incoming (chain index bufs rolls incoming) <= d.
Proof.
  revert rolls index incoming.
  induction bufs as [| b bufs IH]; intros [| r rolls] index incoming Hi Hr;
    simpl; try (unfold last_processed; simpl; lia).
  rewrite last_processed_cons. inversion Hr; subst.
  apply IH; auto. simpl. lia.
Qed.

Lemma sumZ_bounds (d : Z) xs :
  Forall (fun x => 0 <= x <= d) xs -> 0 <= sumZ xs <= Z.of_nat (length xs) * d.
Proof.
  induction 1 as [| x xs Hx _ IH]; [simpl; lia |].
  change (sumZ (x :: xs)) with (x + sumZ xs). simpl length. lia.
Qed.

Lemma sumQ_intsQ xs : (sumQ (intsQ xs) == inject_Z (sumZ xs))%Q.
Proof.
  induction xs as [| x xs IH]; [reflexivity |].
  change (sumZ (x :: xs)) with (x + sumZ xs).
  rewrite inject_Z_plus. simpl. now rewrite IH.
Qed.

Section BoundFacts.
Context {RS : RandomSource}.
Hypothesis lawful : randint_in_range RS.

Lemma round_throughput_bounded i (g : DiceGame) :
  wf g -> 0 <= throughput (round_record i g) <= die_sides g.
Proof.
  intros Hg. split; [now apply round_throughput_nonneg |].
  pose proof Hg as ((_ & Hd & _) & _). simpl.
  apply chain_last_bounded; [lia |].
  eapply Forall_impl; [now apply round_rolls_in_range |]. simpl. intros; lia.
Qed.

Lemma history_throughput_bounded k i (g : DiceGame) :
  wf g ->
  Forall (fun r => 0 <= throughput r <= die_sides g) (history_from i k g).
Proof.
  revert i g. induction k as [| k IH]; intros i g Hg; simpl; constructor.
  - now apply (round_throughput_bounded (i + 1)).
  - apply (IH (i + 1) (round_next g)). now apply wf_round_next.
Qed.

End BoundFacts.

(** X3.  No round puts out more than one roll of the die: every round's
    throughput lies in [[0, die_sides]], so the total throughput of a run
    lies in [[0, rounds * die_sides]]. *)
Theorem throughput_bounded_by_die {RS : RandomSource} (g : DiceGame) (nrounds : Z) :
  randint_in_range RS ->
  wf g ->
  1 <= nrounds ->
  exists s g',
    simulate nrounds g = (Ok s, g') /\
    Forall (fun r => 0 <= throughput r <= die_sides g) (rounds s) /\
    0 <= total_throughput s <= nrounds * die_sides g.
Proof.
  intros lawful Hg Hr.
  destruct (simulate_ok nrounds g (wf_shaped g Hg) Hr)
    as (s & E & _ & Eh & _ & _ & _ & Et).
  exists s, (after_rounds (Z.to_nat nrounds) g).
  split; [exact E |].
  pose proof (history_throughput_bounded lawful (Z.to_nat nrounds) 0 g Hg) as Hb.
  rewrite <- Eh in Hb. split; [exact Hb |].
  assert (Hlen : Z.of_nat (length (map throughput (rounds s))) = nrounds).
  { rewrite length_map, Eh, history_from_length. lia. }
  rewrite Et, <- Hlen. apply sumZ_bounds. now rewrite Forall_fmap.
Qed.

Lemma throughput_bounded_by_die_witness :
  exists s g', simulate 5 demo_game = (Ok s, g') /\
               0 <= total_throughput s <= 5 * 6.
Proof.
  destruct (throughput_bounded_by_die demo_game 5 lcg_in_range demo_game_wf)
    as (s & g' & E & _ & T).
  - lia.
  - exists s, g'. split; [exact E | exact T].
Defined.

Section ComposeFacts.
Context {RS : RandomSource}.

Lemma after_rounds_add a b (g : DiceGame) :
  after_rounds (a + b) g = after_rounds b (after_rounds a g).
Proof. revert g. induction a as [| a IH]; intros g; simpl; auto. Qed.

Lemma history_from_add a b i (g : DiceGame) :
  history_from i (a + b) g
  = history_from i a g ++ history_from (i + Z.of_nat a) b (after_rounds a g).
Proof.
  revert i g. induction a as [| a IH]; intros i g; simpl.
  - now rewrite Z.add_0_r.
  - f_equal. rewrite IH. do 2 f_equal. lia.
Qed.

Lemma history_outcomes_shift k i j (g : DiceGame) :
  map stage_outcomes (history_from i k g) = map stage_outcomes (history_from j k g) /\
  map throughput (history_from i k g) = map throughput (history_from j k g) /\
  map wip (history_from i k g) = map wip (history_from j k g).
Proof.
  revert i j g. induction k as [| k IH]; intros i j g; simpl; [auto |].
  destruct (IH (i + 1) (j + 1) (round_next g)) as (E1 & E2 & E3).
  now rewrite E1, E2, E3.
Qed.

End ComposeFacts.

(** X4.  [simulate] can be called again on the same object, and the two
    runs compose: buffers and generator carry over, so a run of [a] rounds
    followed by one of [b] rounds leaves the object where one run of
    [a + b] rounds leaves it, and the stage outcomes, throughputs and WIP
    of the long run are those of the two short ones in sequence (only the
    round numbers restart at 1). *)
Theorem simulate_composes {RS : RandomSource} (g : DiceGame) (a b : Z) :
  shaped g ->
  1 <= a ->
  1 <= b ->
  exists sa ga sb gb sab,
    simulate a g = (Ok sa, ga) /\
    simulate b ga = (Ok sb, gb) /\
    simulate (a + b) g = (Ok sab, gb) /\
    map stage_outcomes (rounds sab)
    = map stage_outcomes (rounds sa) ++ map stage_outcomes (rounds sb) /\
    map throughput (rounds sab) = map throughput (rounds sa) ++ map throughput (rounds sb) /\
    map wip (rounds sab) = map wip (rounds sa) ++ map wip (rounds sb) /\
    total_throughput sab = total_throughput sa + total_throughput sb.
Proof.
  intros Hg Ha Hb.
  destruct (simulate_ok a g Hg Ha) as (sa & Ea & _ & Eha & _ & _ & _ & Eta).
  set (ga := after_rounds (Z.to_nat a) g) in *.
  assert (Hga : shaped ga) by now apply shaped_after_rounds.
  destruct (simulate_ok b ga Hga Hb) as (sb & Eb & _ & Ehb & _ & _ & _ & Etb).
  destruct (simulate_ok (a + b) g Hg) as (sab & Eab & _ & Ehab & _ & _ & _ & Etab);
    [lia |].
  exists sa, ga, sb, (after_rounds (Z.to_nat b) ga), sab.
  replace (Z.to_nat (a + b)) with (Z.to_nat a + Z.to_nat b)%nat in * by lia.
  rewrite after_rounds_add in Eab. fold ga in Eab.
  rewrite history_from_add in Ehab. fold ga in Ehab.
  destruct (history_outcomes_shift (Z.to_nat b) (0 + Z.of_nat (Z.to_nat a)) 0 ga)
    as (S1 & S2 & S3).
  assert (T : map throughput (rounds sab)
              = map throughput (rounds sa) ++ map throughput (rounds sb))
    by (rewrite Ehab, Eha, Ehb, map_app, S2; reflexivity).
  repeat split; try assumption.
  - rewrite Ehab, Eha, Ehb, map_app, S1. reflexivity.
  - rewrite Ehab, Eha, Ehb, map_app, S3. reflexivity.
  - rewrite Etab, Eta, Etb, T. apply sumZ_app.
Qed.

Lemma simulate_composes_witness :
  exists sa ga sb gb sab,
    simulate 2 demo_game = (Ok sa, ga) /\ simulate 3 ga = (Ok sb, gb) /\
    simulate 5 demo_game = (Ok sab, gb) /\
    total_throughput sab = total_throughput sa + total_throughput sb.
Proof.
  destruct (simulate_composes demo_game 2 3)
    as (sa & ga & sb & gb & sab & E1 & E2 & E3 & _ & _ & _ & T).
  - exact (wf_shaped _ demo_game_wf).
  - lia.
  - lia.
  - exists sa, ga, sb, gb, sab. repeat split; assumption.
Defined.

(** ** The starved and blocked ratios *)

Lemma count_flag_cons flag i so outs :
  count_flag flag i (so :: outs)
  = (if (stage so =? i) && flag so then 1 else 0) + count_flag flag i outs.
Proof. reflexivity. Qed.

Lemma count_flag_nonneg flag i outs : 0 <= count_flag flag i outs.
Proof.
  induction outs as [| so outs IH]; [reflexivity |].
  rewrite count_flag_cons. destruct ((stage so =? i) && flag so); lia.
Qed.

(** The guarded [counts[stage] += 1] adds one at the outcome's stage when
    the flag is set and leaves every other entry alone. *)
Lemma bump_if_lookup (flag : StageOutcome -> bool) so (counts : list Z) (i : nat) :
  stage so = Z.of_nat i ->
  (i < length counts)%nat ->
  exists counts',
    (if flag so then bump counts (stage so) else Ok counts) = Ok counts' /\
    length counts' = length counts /\
    forall j c, counts !! j = Some c ->
      counts' !! j = Some (c + (if (stage so =? Z.of_nat j) && flag so then 1 else 0)).
Proof.
  intros Ei Hi. rewrite Ei. destruct (flag so).
  - destruct (lookup_lt_is_Some_2 counts i Hi) as [c Hc].
    exists (<[i:=c + 1]> counts). unfold bump.
    rewrite (getitem_nat _ _ _ Hc). simpl. rewrite setitem_nat by exact Hi.
    split; [reflexivity |]. split; [apply length_insert |].
    intros j c' Hj. destruct (Z.eqb_spec (Z.of_nat i) (Z.of_nat j)) as [E | E]; simpl.
    + apply Nat2Z.inj in E. subst j. rewrite Hc in Hj. inversion Hj; subst.
      now apply list_lookup_insert_eq.
    + rewrite list_lookup_insert_ne by congruence. rewrite Hj. f_equal. lia.
  - exists counts. split; [reflexivity |]. split; [reflexivity |].
    intros j c Hj. rewrite andb_false_r, Z.add_0_r. exact Hj.
Qed.

Lemma count_stages_counts n outs (sc bc : list Z) :
  length sc = n -> length bc = n ->
  Forall (stage_below n) outs ->
  exists sc' bc',
    count_stages outs (sc, bc) = Ok (sc', bc') /\
    length sc' = n /\ length bc' = n /\
    (forall j c, sc !! j = Some c ->
       sc' !! j = Some (c + count_flag starved (Z.of_nat j) outs)) /\
    (forall j c, bc !! j = Some c ->
       bc' !! j = Some (c + count_flag blocked (Z.of_nat j) outs)).
Proof.
  intros Hsc Hbc Houts. revert sc bc Hsc Hbc.
  induction Houts as [| so outs (i & Ei & Hi) _ IH]; intros sc bc Hsc Hbc.
  - exists sc, bc. repeat split; auto; intros j c Hj;
      (rewrite Hj; f_equal; unfold count_flag; simpl; lia).
  - destruct (bump_if_lookup starved so sc i Ei) as (sc1 & Es & Ls & Hs); [lia |].
    destruct (bump_if_lookup blocked so bc i Ei) as (bc1 & Eb & Lb & Hb); [lia |].
    destruct (IH sc1 bc1) as (sc' & bc' & E & Ls' & Lb' & Hs' & Hb'); try lia.
    exists sc', bc'. simpl count_stages. rewrite Es. simpl. rewrite Eb. simpl.
    split; [exact E |]. split; [exact Ls' |]. split; [exact Lb' |].
    split; intros j c Hj; rewrite count_flag_cons.
    + rewrite (Hs' j _ (Hs j c Hj)). f_equal. lia.
    + rewrite (Hb' j _ (Hb j c Hj)). f_equal. lia.
Qed.

Lemma count_rounds_counts n history (sc bc : list Z) :
  length sc = n -> length bc = n ->
  Forall (fun r => Forall (stage_below n) (stage_outcomes r)) history ->
  exists sc' bc',
    count_rounds history (sc, bc) = Ok (sc', bc') /\
    length sc' = n /\ length bc' = n /\
    (forall j c, sc !! j = Some c ->
       sc' !! j = Some (c + count_rounds_flag starved (Z.of_nat j) history)) /\
    (forall j c, bc !! j = Some c ->
       bc' !! j = Some (c + count_rounds_flag blocked (Z.of_nat j) history)).
Proof.
  intros Hsc Hbc Hh. revert sc bc Hsc Hbc.
  induction Hh as [| r history Hr _ IH]; intros sc bc Hsc Hbc.
  - exists sc, bc. repeat split; auto; intros j c Hj;
      (rewrite Hj; f_equal; unfold count_rounds_flag; simpl; lia).
  - destruct (count_stages_counts n _ sc bc Hsc Hbc Hr)
      as (sc1 & bc1 & E1 & Ls & Lb & Hs & Hb).
    destruct (IH sc1 bc1 Ls Lb) as (sc' & bc' & E & Ls' & Lb' & Hs' & Hb').
    exists sc', bc'. simpl count_rounds. rewrite E1. simpl.
    split; [exact E |]. split; [exact Ls' |]. split; [exact Lb' |].
    split; intros j c Hj;
      change (count_rounds_flag ?f ?i (r :: history))
        with (count_flag f i (stage_outcomes r) + count_rounds_flag f i history).
    + rewrite (Hs' j _ (Hs j c Hj)). f_equal. lia.
    + rewrite (Hb' j _ (Hb j c Hj)). f_equal. lia.
Qed.

(** In one round a stage is counted at most once, as starved or as
    blocked. *)
Lemma chain_counts_once j bufs rolls index incoming :
  count_flag starved j (chain index bufs rolls incoming)
  + count_flag blocked j (chain index bufs rolls incoming)
  <= (if index <=? j then 1 else 0).
Proof.
  revert rolls index incoming.
  induction bufs as [| b bufs IH]; intros [| r rolls] index incoming;
    try (unfold count_flag; simpl; destruct (index <=? j); lia).
  simpl chain. rewrite !count_flag_cons.
  specialize (IH rolls (index + 1) (Z.min (b + incoming) r)).
  simpl stage. simpl starved. simpl blocked. simpl processed in IH.
  destruct (Z.eqb_spec index j), (Z.leb_spec index j), (Z.leb_spec (index + 1) j),
    (Z.ltb_spec (b + incoming) r),
    (Z.ltb_spec 0 (b + incoming - Z.min (b + incoming) r)); simpl; lia.
Qed.

Section RatioFacts.
Context {RS : RandomSource}.

Lemma history_counts_once j k i (g : DiceGame) :
  count_rounds_flag starved j (history_from i k g)
  + count_rounds_flag blocked j (history_from i k g) <= Z.of_nat k.
Proof.
  revert i g. induction k as [| k IH]; intros i g; [reflexivity |].
  simpl history_from.
  change (count_rounds_flag ?f j (?r :: ?h))
    with (count_flag f j (stage_outcomes r) + count_rounds_flag f j h).
  specialize (IH (i + 1) (round_next g)).
  pose proof (chain_counts_once j (released (release_rate g) (buffers g))
                (round_rolls g) 0 0) as H1.
  fold (round_outs g) in H1. simpl stage_outcomes.
  destruct (0 <=? j); lia.
Qed.

Lemma count_rounds_flag_nonneg flag j (history : list RoundOutcome) :
  0 <= count_rounds_flag flag j history.
Proof.
  induction history as [| r history IH]; [reflexivity |].
  change (count_rounds_flag flag j (r :: history))
    with (count_flag flag j (stage_outcomes r) + count_rounds_flag flag j history).
  pose proof (count_flag_nonneg flag j (stage_outcomes r)). lia.
Qed.

End RatioFacts.

Lemma zeros_lookup n j c : map (fun _ : Z => 0) (range n) !! j = Some c -> c = 0.
Proof.
  rewrite list_lookup_fmap. destruct (range n !! j); simpl; congruence.
Qed.

(** The ratio fields of the summary, from the counting loops. *)
Lemma summarize_ratios n nrounds history s :
  summarize n nrounds history = Ok s ->
  Forall (fun r => Forall (stage_below (Z.to_nat n)) (stage_outcomes r)) history ->
  exists sc bc,
    length sc = Z.to_nat n /\ length bc = Z.to_nat n /\
    stage_starved_ratio s = map (fun c => inject_Z c / inject_Z nrounds)%Q sc /\
    stage_blocked_ratio s = map (fun c => inject_Z c / inject_Z nrounds)%Q bc /\
    (forall j c, sc !! j = Some c -> c = count_rounds_flag starved (Z.of_nat j) history) /\
    (forall j c, bc !! j = Some c -> c = count_rounds_flag blocked (Z.of_nat j) history).
Proof.
  intros E Hst.
  destruct (count_rounds_counts (Z.to_nat n) history
              (map (fun _ => 0) (range n)) (map (fun _ => 0) (range n)))
    as (sc & bc & Ec & Ls & Lb & Hs & Hb);
    try (now rewrite length_map, range_length); auto.
  exists sc, bc. unfold summarize in E.
  destruct (mean (intsQ (map throughput history))); [| discriminate].
  simpl in E.
  destruct (if (1 <? length (map throughput history))%nat
            then pstdev (intsQ (map throughput history)) else Ok 0%R);
    [| discriminate].
  simpl in E.
  destruct (mean (intsQ (map wip history))); [| discriminate].
  simpl in E. rewrite Ec in E. simpl in E. injection E as <-. simpl.
  split; [exact Ls |]. split; [exact Lb |].
  split; [reflexivity |]. split; [reflexivity |].
  split; intros j c Hj.
  - assert (Hlt : (j < Z.to_nat n)%nat) by (rewrite <- Ls; eapply lookup_lt_Some; eauto).
    destruct (lookup_lt_is_Some_2 (map (fun _ : Z => 0) (range n)) j) as [c0 Hc0];
      [now rewrite length_map, range_length |].
    pose proof (zeros_lookup _ _ _ Hc0). subst c0.
    rewrite (Hs j 0 Hc0) in Hj. injection Hj as <-. lia.
  - assert (Hlt : (j < Z.to_nat n)%nat) by (rewrite <- Lb; eapply lookup_lt_Some; eauto).
    destruct (lookup_lt_is_Some_2 (map (fun _ : Z => 0) (range n)) j) as [c0 Hc0];
      [now rewrite length_map, range_length |].
    pose proof (zeros_lookup _ _ _ Hc0). subst c0.
    rewrite (Hb j 0 Hc0) in Hj. injection Hj as <-. lia.
Qed.

(** X5.  The summary has one starved ratio and one blocked ratio per
    stage.  The ratio of stage [i] is the number of rounds in which that
    stage was starved (blocked) over the number of rounds; as no stage is
    both in one round, the two ratios of a stage are nonnegative and sum to
    at most 1. *)
Theorem stage_ratios {RS : RandomSource} (g : DiceGame) (nrounds : Z) :
  shaped g ->
  1 <= nrounds ->
  exists s g',
    simulate nrounds g = (Ok s, g') /\
    length (stage_starved_ratio s) = Z.to_nat (stages g) /\
    length (stage_blocked_ratio s) = Z.to_nat (stages g) /\
    forall i x y,
      stage_starved_ratio s !! i = Some x ->
      stage_blocked_ratio s !! i = Some y ->
      x = (inject_Z (count_rounds_flag starved (Z.of_nat i) (rounds s))
           / inject_Z nrounds)%Q /\
      y = (inject_Z (count_rounds_flag blocked (Z.of_nat i) (rounds s))
           / inject_Z nrounds)%Q /\
      (0 <= x)%Q /\ (0 <= y)%Q /\ (x + y <= 1)%Q.
Proof.
  intros Hg Hr.
  destruct (simulate_ok nrounds g Hg Hr) as (s & E & Es & Eh & _).
  exists s, (after_rounds (Z.to_nat nrounds) g). split; [exact E |].
  destruct (summarize_ratios _ _ _ _ Es) as (sc & bc & Ls & Lb & Rs & Rb & Hs & Hb).
  { destruct Hg as (_ & _ & Hl). rewrite <- Hl. apply history_stage_below. }
  rewrite Rs, Rb, !length_map. split; [exact Ls |]. split; [exact Lb |].
  intros i x y Hx Hy.
  rewrite list_lookup_fmap in Hx, Hy.
  destruct (sc !! i) as [cs |] eqn:Ecs; [| discriminate].
  destruct (bc !! i) as [cb |] eqn:Ecb; [| discriminate].
  simpl in Hx, Hy. injection Hx as <-. injection Hy as <-.
  rewrite (Hs i cs Ecs), (Hb i cb Ecb), Eh.
  pose proof (history_counts_once (Z.of_nat i) (Z.to_nat nrounds) 0 g) as Hsum.
  pose proof (count_rounds_flag_nonneg starved (Z.of_nat i)
                (history_from 0 (Z.to_nat nrounds) g)) as H0s.
  pose proof (count_rounds_flag_nonneg blocked (Z.of_nat i)
                (history_from 0 (Z.to_nat nrounds) g)) as H0b.
  set (a := count_rounds_flag starved _ _) in *.
  set (b := count_rounds_flag blocked _ _) in *.
  assert (Hpos : (0 < inject_Z nrounds)%Q)
    by (change 0%Q with (inject_Z 0); rewrite <- Zlt_Qlt; lia).
  assert (Hnz : ~ (inject_Z nrounds == 0)%Q).
  { intros E0. rewrite E0 in Hpos. now apply Qlt_irrefl in Hpos. }
  split; [reflexivity |]. split; [reflexivity |].
  split; [| split].
  - apply Qle_shift_div_l; [exact Hpos |]. rewrite Qmult_0_l.
    change 0%Q with (inject_Z 0). rewrite <- Zle_Qle. exact H0s.
  - apply Qle_shift_div_l; [exact Hpos |]. rewrite Qmult_0_l.
    change 0%Q with (inject_Z 0). rewrite <- Zle_Qle. exact H0b.
  - assert (Heq : (inject_Z a / inject_Z nrounds + inject_Z b / inject_Z nrounds
                   == inject_Z (a + b) / inject_Z nrounds)%Q)
      by (rewrite inject_Z_plus; field; exact Hnz).
    rewrite Heq.
    apply Qle_shift_div_r; [exact Hpos |]. rewrite Qmult_1_l.
    rewrite <- Zle_Qle. lia.
Qed.

Lemma stage_ratios_witness :
  exists s g', simulate 5 demo_game = (Ok s, g') /\
               length (stage_starved_ratio s) = 3%nat.
Proof.
  destruct (stage_ratios demo_game 5) as (s & g' & E & L & _).
  - exact (wf_shaped _ demo_game_wf).
  - lia.
  - exists s, g'. split; [exact E | exact L].
Defined.

(** ** The idle line *)

Lemma chain_idle bufs rolls index :
  Forall (fun b => b = 0) bufs ->
  Forall (Z.le 1) rolls ->
  Forall idle_outcome (chain index bufs rolls 0) /\
  Forall (fun b => b = 0) (map buffer_after (chain index bufs rolls 0)) /\
  last_processed 0 (chain index bufs rolls 0) = 0.
Proof.
  intros Hb. revert rolls index.
  induction Hb as [| b bufs -> _ IH]; intros [| r rolls] index Hr;
    try (simpl; repeat split; constructor).
  inversion Hr as [| ? ? Hr1 Hr2]; subst.
  assert (Hmin : Z.min (0 + 0) r = 0) by lia.
  simpl chain. simpl processed. rewrite Hmin.
  destruct (IH rolls (index + 1) Hr2) as (I1 & I2 & I3).
  rewrite last_processed_cons. simpl processed. rewrite Hmin.
  split; [| split; [| exact I3]].
  - constructor; [| exact I1]. unfold idle_outcome. simpl. rewrite Hmin.
    repeat split. apply Z.ltb_lt. lia.
  - simpl. rewrite Hmin. constructor; [reflexivity | exact I2].
Qed.

Lemma sumZ_zeros xs : Forall (fun b => b = 0) xs -> sumZ xs = 0.
Proof.
  induction 1 as [| x xs -> _ IH]; [reflexivity |].
  change (sumZ (0 :: xs)) with (0 + sumZ xs). lia.
Qed.

Section IdleFacts.
Context {RS : RandomSource}.
Hypothesis lawful : randint_in_range RS.

Lemma idle_round (g : DiceGame) :
  shaped g -> idle g ->
  Forall idle_outcome (round_outs g) /\
  last_processed 0 (round_outs g) = 0 /\
  idle (round_next g).
Proof.
  intros (_ & Hd & _) (Hr & Hb).
  destruct (chain_idle (released (release_rate g) (buffers g)) (round_rolls g) 0)
    as (I1 & I2 & I3).
  - apply released_Forall; [intros; lia | exact Hb].
  - now apply round_rolls_positive.
  - repeat split; assumption.
Qed.

Lemma idle_history k i (g : DiceGame) :
  shaped g -> idle g ->
  Forall (fun r => Forall idle_outcome (stage_outcomes r) /\
                   throughput r = 0 /\ wip r = 0) (history_from i k g) /\
  idle (after_rounds k g).
Proof.
  revert i g. induction k as [| k IH]; intros i g Hs Hi; simpl.
  - split; [constructor | exact Hi].
  - destruct (idle_round g Hs Hi) as (I1 & I2 & I3).
    destruct (IH (i + 1) (round_next g) (shaped_round_next g Hs) I3) as (H1 & H2).
    split; [| exact H2]. constructor; [| exact H1].
    simpl. split; [exact I1 |]. split; [exact I2 |].
    apply sumZ_zeros. exact (proj2 I3).
Qed.

End IdleFacts.

(** The aggregation of a non-empty collection returns; its fields. *)
Lemma print_summary_ok s0 rest :
  exists sd,
    _print_summary (s0 :: rest)
    = Ok {| reps := Z.of_nat (length (s0 :: rest));
            rep_rounds := Z.of_nat (length (rounds s0));
            overall_avg_throughput :=
              (sumQ (map avg_throughput (s0 :: rest)) / lenQ (map avg_throughput (s0 :: rest)))%Q;
            overall_avg_wip :=
              (sumQ (map avg_wip (s0 :: rest)) / lenQ (map avg_wip (s0 :: rest)))%Q;
            overall_total :=
              (sumQ (intsQ (map total_throughput (s0 :: rest)))
               / lenQ (intsQ (map total_throughput (s0 :: rest))))%Q;
            throughput_sd_between := sd;
            cycle_time :=
              little_cycle_time
                (sumQ (map avg_wip (s0 :: rest)) / lenQ (map avg_wip (s0 :: rest)))%Q
                (sumQ (map avg_throughput (s0 :: rest))
                 / lenQ (map avg_throughput (s0 :: rest)))%Q |}.
Proof.
  assert (Hsd : exists sd, (if 1 <? Z.of_nat (length (s0 :: rest))
                            then pstdev (map avg_throughput (s0 :: rest))
                            else Ok 0%R) = Ok sd).
  { destruct (1 <? Z.of_nat (length (s0 :: rest))); [| eauto].
    apply pstdev_ok. discriminate. }
  destruct Hsd as (sd & Esd). exists sd.
  unfold _print_summary.
  remember (s0 :: rest) as summaries eqn:Es.
  assert (E0 : getitem summaries 0 = Ok s0)
    by (rewrite Es; change 0 with (Z.of_nat 0); now apply getitem_nat).
  assert (Ht : map avg_throughput summaries <> []) by (rewrite Es; discriminate).
  assert (Hw : map avg_wip summaries <> []) by (rewrite Es; discriminate).
  assert (Hz : intsQ (map total_throughput summaries) <> []) by (rewrite Es; discriminate).
  rewrite E0. simpl mbind at 1.
  rewrite (mean_ok _ Ht), (mean_ok _ Hw), (mean_ok _ Hz), Esd. reflexivity.
Qed.

(** X6.  An idle line stays idle: with nothing released and empty
    buffers, every stage of every round is starved and not blocked and
    processes nothing, throughput and WIP are 0 in every round, the buffers
    stay empty, and the aggregate's cycle time is the undefined sentinel. *)
Theorem idle_line {RS : RandomSource} (g : DiceGame) (nrounds : Z) :
  randint_in_range RS ->
  shaped g ->
  idle g ->
  1 <= nrounds ->
  exists s g' rs,
    simulate nrounds g = (Ok s, g') /\
    (forall r so, In r (rounds s) -> In so (stage_outcomes r) -> idle_outcome so) /\
    Forall (fun r => throughput r = 0 /\ wip r = 0) (rounds s) /\
    total_throughput s = 0 /\
    (avg_throughput s == 0)%Q /\
    idle g' /\
    _print_summary [s] = Ok rs /\
    cycle_time rs = None.
Proof.
  intros lawful Hs Hi Hr.
  destruct (simulate_ok nrounds g Hs Hr) as (s & E & _ & Eh & Em & _ & _ & Et).
  destruct (idle_history lawful (Z.to_nat nrounds) 0 g Hs Hi) as (Hh & Hg').
  rewrite <- Eh in Hh.
  assert (Hthr : Forall (fun x => x = 0) (map throughput (rounds s))).
  { rewrite Forall_fmap. eapply Forall_impl; [exact Hh |]. simpl. intros r H. apply H. }
  assert (Htot : total_throughput s = 0) by (rewrite Et; now apply sumZ_zeros).
  assert (Havg : (avg_throughput s == 0)%Q).
  { assert (Hne : intsQ (map throughput (rounds s)) <> []).
    { apply intsQ_nonempty. rewrite Eh. intros E0. apply (f_equal length) in E0.
      rewrite length_map, history_from_length in E0. simpl in E0. lia. }
    rewrite (mean_ok _ Hne) in Em. injection Em as <-.
    rewrite sumQ_intsQ, <- Et, Htot. unfold Qdiv. apply Qmult_0_l. }
  destruct (print_summary_ok s []) as (sd & Ep).
  eexists s, (after_rounds (Z.to_nat nrounds) g), _.
  split; [exact E |]. split; [| split; [| split; [exact Htot |
    split; [exact Havg | split; [exact Hg' | split; [exact Ep |]]]]]].
  - intros r so Hin Hso. rewrite List.Forall_forall in Hh.
    destruct (Hh r Hin) as (HF & _). rewrite List.Forall_forall in HF. now apply HF.
  - eapply Forall_impl; [exact Hh |]. simpl. intros r H. apply H.
  - simpl. unfold little_cycle_time.
    destruct (Qlt_le_dec 0 _) as [Hpos | _]; [| reflexivity].
    exfalso. simpl in Hpos. unfold lenQ in Hpos. simpl in Hpos.
    rewrite Havg in Hpos. now apply Qlt_irrefl in Hpos.
Qed.

Lemma idle_line_witness :
  exists s g' rs, simulate 1 idle_game = (Ok s, g') /\
                  total_throughput s = 0 /\
                  _print_summary [s] = Ok rs /\ cycle_time rs = None.
Proof.
  destruct (idle_line idle_game 1 lcg_in_range)
    as (s & g' & rs & E & _ & _ & T & _ & _ & P & C).
  - unfold shaped, idle_game; simpl. repeat split; lia.
  - unfold idle, idle_game; simpl. split; [reflexivity | repeat constructor].
  - lia.
  - exists s, g', rs. repeat split; assumption.
Defined.

(** ** The command-line run *)

Lemma range_nonpos n : n <= 0 -> range n = [].
Proof. intros H. unfold range. now replace (Z.to_nat n) with 0%nat by lia. Qed.

Lemma range_pos n : 1 <= n -> range n = 0 :: map Z.of_nat (seq 1 (Z.to_nat n - 1)).
Proof.
  intros H. unfold range.
  replace (Z.to_nat n) with (S (Z.to_nat n - 1)) at 1 by lia. reflexivity.
Qed.

(** X8.  With no replication to run ([replications <= 0]) [main] builds
    no object, so it checks no parameter: whatever the other arguments,
    valid or not, it ends in the [IndexError] of [_print_summary] on the
    empty collection. *)
Theorem main_without_replications {RS : RandomSource} (args : Args) (entropy : Z -> Z) :
  arg_replications args <= 0 ->
  main args entropy = Raise IndexError.
Proof.
  intros H. unfold main. rewrite range_nonpos by exact H. reflexivity.
Qed.

Lemma main_without_replications_witness :
  @main lcg {| arg_stages := 0; arg_rounds := 0; arg_die_sides := 0;
               arg_release_rate := -1; arg_initial_buffer := -1;
               arg_seed := None; arg_replications := -3 |} (fun _ => 0)
  = Raise IndexError.
Proof. apply main_without_replications. simpl. lia. Defined.

(** X9.  With at least one replication, an invalid configuration or
    [rounds < 1] makes [main] raise [ValueError] in the first replication:
    no summary is collected and nothing is aggregated. *)
Theorem main_rejects_invalid {RS : RandomSource} (args : Args) (entropy : Z -> Z) :
  1 <= arg_replications args ->
  ~ valid_args args ->
  is_value_error (main args entropy) = true /\
  is_value_error (run_replications args entropy (range (arg_replications args)) []) = true.
Proof.
  intros Hn Hinv.
  assert (H : is_value_error
                (run_replications args entropy (range (arg_replications args)) []) = true).
  { rewrite range_pos by exact Hn. simpl run_replications.
    set (seed := match arg_seed args with Some base => Some (base + 0) | None => None end).
    assert (Hd : valid_config (arg_stages args) (arg_die_sides args)
                   (arg_release_rate args) (arg_initial_buffer args)
                 \/ ~ valid_config (arg_stages args) (arg_die_sides args)
                       (arg_release_rate args) (arg_initial_buffer args))
      by (unfold valid_config; lia).
    destruct Hd as [Hv | Hv].
    - rewrite (init_ok _ _ _ _ seed (entropy 0) Hv). simpl mbind at 1.
      assert (Hr : arg_rounds args < 1).
      { destruct (Z.lt_ge_cases (arg_rounds args) 1) as [Hr | Hr]; [exact Hr |].
        exfalso. apply Hinv. split; [exact Hv | exact Hr]. }
      rewrite simulate_too_few by exact Hr. reflexivity.
    - pose proof (init_invalid _ _ _ _ seed (entropy 0) Hv) as He.
      destruct (__init__ _ _ _ _ seed (entropy 0)) as [g | [msg | | | |]];
        try discriminate. reflexivity. }
  split; [| exact H]. unfold main.
  destruct (run_replications args entropy (range (arg_replications args)) [])
    as [sums | [msg | | | |]]; try discriminate. reflexivity.
Qed.

Lemma main_rejects_invalid_witness :
  is_value_error
    (@main lcg {| arg_stages := 5; arg_rounds := 0; arg_die_sides := 6;
                  arg_release_rate := 4; arg_initial_buffer := 3;
                  arg_seed := Some 1; arg_replications := 2 |} (fun _ => 0)) = true.
Proof.
  apply (@main_rejects_invalid lcg).
  - simpl. lia.
  - unfold valid_args. simpl. lia.
Defined.

(** ** The repository lister *)

Section ListerFacts.
Context {Repo : Type}.
Variable server : nat -> string -> response Repo.

Lemma fetch_repos_body t username page per_page data :
  server t (repos_url username page per_page) = Body data ->
  fetch_repos server t username page per_page = Returns data.
Proof. intros E. unfold fetch_repos. now rewrite E. Qed.

(** The loop after [length done] full pages: it goes through the full
    pages still ahead and then meets the page that decides. *)
Lemma list_all_repos_loop_full username (todo done : list (list Repo)) fuel acc :
  serves_full_pages server username (done ++ todo) ->
  list_all_repos_loop server (length todo + fuel) username (length done)
    (Z.of_nat (length done) + 1) acc
  = list_all_repos_loop server fuel username (length (done ++ todo))
      (Z.of_nat (length (done ++ todo)) + 1) (acc ++ concat todo).
Proof.
  revert done acc. induction todo as [| p todo IH]; intros done acc Hs.
  - simpl. now rewrite !app_nil_r.
  - destruct (Hs (length done) p) as (Ep & Hp).
    { apply list_lookup_middle. reflexivity. }
    simpl Nat.add. simpl list_all_repos_loop.
    rewrite (fetch_repos_body _ _ _ _ _ Ep).
    destruct p as [| x p]; [simpl in Hp; lia |].
    destruct (Nat.ltb_spec (length (x :: p)) 100); [lia |].
    specialize (IH (done ++ [x :: p]) (acc ++ x :: p)).
    rewrite <- app_assoc in IH. simpl in IH. specialize (IH Hs).
    rewrite length_app in IH. simpl length in IH.
    replace (Z.of_nat (length done + 1) + 1) with (Z.of_nat (length done) + 1 + 1) in IH by lia.
    replace (length done + 1)%nat with (S (length done)) in IH by lia.
    rewrite IH. simpl concat. now rewrite <- app_assoc.
Qed.

End ListerFacts.

(** X10.  [list_all_repos] returns every page up to and including the
    first one with fewer than a hundred entries (an empty one included),
    concatenated in order: if requests 0 .. k-1 for pages 1 .. k get full
    pages and request k for page k+1 gets a short one, the result is all of
    them, after exactly k+1 requests. *)
Theorem list_all_repos_concatenates {Repo : Type} (server : nat -> string -> response Repo)
    (username : string) (pages : list (list Repo)) (short : list Repo) (fuel : nat) :
  serves_full_pages server username pages ->
  server (length pages) (repos_url username (Z.of_nat (length pages) + 1) 100)
  = Body short ->
  (length short < 100)%nat ->
  (length pages < fuel)%nat ->
  list_all_repos server fuel username = Some (Returns (concat pages ++ short)).
Proof.
  intros Hs Eshort Hlen Hfuel. unfold list_all_repos.
  replace fuel with (length pages + S (fuel - length pages - 1))%nat by lia.
  change 1 with (Z.of_nat (length (@nil (list Repo))) + 1) at 1.
  change 0%nat with (length (@nil (list Repo))) at 1.
  rewrite (list_all_repos_loop_full server username pages []) by exact Hs.
  simpl app. simpl list_all_repos_loop.
  rewrite (fetch_repos_body _ _ _ _ _ _ Eshort).
  destruct short as [| x short]; [now rewrite app_nil_r |].
  destruct (Nat.ltb_spec (length (x :: short)) 100); [reflexivity | lia].
Qed.

Lemma paged_server_full :
  serves_full_pages paged_server "octocat" [replicate 100 1%nat; replicate 100 2%nat].
Proof.
  intros j p H. destruct j as [| [| j]]; simpl in H; try discriminate;
    injection H as <-; (split; [reflexivity | simpl; lia]).
Qed.

Lemma list_all_repos_concatenates_witness :
  list_all_repos paged_server 5 "octocat"
  = Some (Returns (replicate 100 1%nat ++ replicate 100 2%nat ++ replicate 50 3%nat)).
Proof.
  rewrite (list_all_repos_concatenates paged_server "octocat"
             [replicate 100 1%nat; replicate 100 2%nat] (replicate 50 3%nat) 5).
  - reflexivity.
  - exact paged_server_full.
  - reflexivity.
  - rewrite length_replicate. lia.
  - simpl. lia.
Defined.

(** X11.  A failed request ends the program with status 1, whatever was
    collected before: after any number of full pages, an [HTTPError] 404
    exits with the "not found" message for the user, any other
    [HTTPError] with its code and reason, any other exception with its
    text; no list is returned. *)
Theorem list_all_repos_exits_on_error {Repo : Type}
    (server : nat -> string -> response Repo)
    (username : string) (pages : list (list Repo)) (fuel : nat) :
  serves_full_pages server username pages ->
  (length pages < fuel)%nat ->
  let url := repos_url username (Z.of_nat (length pages) + 1) 100 in
  (forall reason,
     server (length pages) url = HTTPError 404 reason ->
     list_all_repos server fuel username
     = Some (SysExit ("Error: User '" +:+ username +:+ "' not found") 1)) /\
  (forall code reason,
     server (length pages) url = HTTPError code reason ->
     code <> 404 ->
     list_all_repos server fuel username
     = Some (SysExit ("Error: HTTP " +:+ pretty code +:+ " - " +:+ reason) 1)) /\
  (forall msg,
     server (length pages) url = OtherError msg ->
     list_all_repos server fuel username = Some (SysExit ("Error: " +:+ msg) 1)).
Proof.
  intros Hs Hfuel url.
  assert (Hloop : list_all_repos server fuel username
                  = match fetch_repos server (length pages) username
                            (Z.of_nat (length pages) + 1) 100 with
                    | SysExit err code => Some (SysExit err code)
                    | Returns repos =>
                        list_all_repos_loop server (S (fuel - length pages - 1)) username
                          (length pages) (Z.of_nat (length pages) + 1) (concat pages)
                    end).
  { unfold list_all_repos.
    replace fuel with (length pages + S (fuel - length pages - 1))%nat at 1 by lia.
    change 1 with (Z.of_nat (length (@nil (list Repo))) + 1) at 1.
    change 0%nat with (length (@nil (list Repo))) at 1.
    rewrite (list_all_repos_loop_full server username pages []) by exact Hs.
    simpl app. simpl list_all_repos_loop.
    destruct (fetch_repos server (length pages) username
                (Z.of_nat (length pages) + 1) 100); reflexivity. }
  rewrite Hloop. unfold fetch_repos. fold url.
  split; [| split].
  - intros reason E. rewrite E. reflexivity.
  - intros code reason E Hc. rewrite E.
    destruct (Z.eqb_spec code 404); [contradiction | reflexivity].
  - intros msg E. rewrite E. reflexivity.
Qed.

Lemma failing_server_full :
  serves_full_pages failing_server "octocat" [replicate 100 1%nat].
Proof.
  intros j p H. destruct j as [| j]; simpl in H; try discriminate.
  injection H as <-. split; [reflexivity | simpl; lia].
Qed.

Lemma list_all_repos_exits_on_error_witness :
  list_all_repos failing_server 5 "octocat"
  = Some (SysExit "Error: HTTP 403 - rate limit exceeded" 1).
Proof.
  destruct (list_all_repos_exits_on_error failing_server "octocat"
              [replicate 100 1%nat] 5 failing_server_full) as (_ & H & _).
  - simpl. lia.
  - rewrite (H 403 "rate limit exceeded"); [reflexivity | reflexivity | lia].
Defined.

(** X12.  The loop has no bound of its own: against a server that
    answers every request with a page of at least a hundred entries,
    [list_all_repos] is still running after any number of requests. *)
Theorem list_all_repos_endless {Repo : Type} (server : nat -> string -> response Repo)
    (username : string) (fuel : nat) :
  (forall t url, exists p, server t url = Body p /\ (100 <= length p)%nat) ->
  list_all_repos server fuel username = None.
Proof.
  intros Hs. unfold list_all_repos.
  generalize 0%nat as t, 1 as page, (@nil Repo) as acc.
  induction fuel as [| fuel IH]; intros t page acc; [reflexivity |].
  simpl. destruct (Hs t (repos_url username page 100)) as (p & Ep & Hp).
  rewrite (fetch_repos_body _ _ _ _ _ _ Ep).
  destruct p as [| x p]; [simpl in Hp; lia |].
  destruct (Nat.ltb_spec (length (x :: p)) 100); [lia | apply IH].
Qed.

Lemma list_all_repos_endless_witness :
  list_all_repos endless_server 1000 "octocat" = None.
Proof.
  apply list_all_repos_endless. intros t url.
  exists (replicate 100 t). split; [reflexivity | rewrite length_replicate; lia].
Defined.

(** ** WIP from round to round *)

Section WipFacts.
Context {RS : RandomSource}.

Lemma history_from_lookup k i j (g : DiceGame) r :
  history_from i k g !! j = Some r ->
  r = round_record (i + Z.of_nat j + 1) (after_rounds j g).
Proof.
  revert i j g. induction k as [| k IH]; intros i j g H; [discriminate |].
  destruct j as [| j]; simpl in H.
  - injection H as <-. simpl. f_equal. lia.
  - apply IH in H. rewrite H. simpl. f_equal. lia.
Qed.

Lemma after_rounds_succ j (g : DiceGame) :
  after_rounds (S j) g = round_next (after_rounds j g).
Proof.
  replace (S j) with (j + 1)%nat by lia. now rewrite after_rounds_add.
Qed.

Lemma round_record_wip i (g : DiceGame) :
  wip (round_record i g) = sumZ (buffers (round_next g)).
Proof. reflexivity. Qed.

End WipFacts.

(** X13.  The history shows the conservation round by round: the first
    round's WIP is the initial WIP plus one release minus that round's
    throughput, and every later round's WIP is the previous round's WIP
    plus one release minus its own throughput. *)
Theorem wip_recurrence {RS : RandomSource} (g : DiceGame) (nrounds : Z) :
  shaped g ->
  1 <= nrounds ->
  exists s g',
    simulate nrounds g = (Ok s, g') /\
    (forall r, rounds s !! 0%nat = Some r ->
       wip r = sumZ (buffers g) + release_rate g - throughput r) /\
    (forall k r r', rounds s !! k = Some r -> rounds s !! S k = Some r' ->
       wip r' = wip r + release_rate g - throughput r').
Proof.
  intros Hg Hr.
  destruct (simulate_ok nrounds g Hg Hr) as (s & E & _ & Eh & _).
  exists s, (after_rounds (Z.to_nat nrounds) g). split; [exact E |].
  rewrite Eh. split.
  - intros r H. apply history_from_lookup in H. subst r.
    rewrite round_record_wip. simpl after_rounds.
    rewrite round_next_conservation by exact Hg. reflexivity.
  - intros k r r' H H'.
    apply history_from_lookup in H. apply history_from_lookup in H'. subst r r'.
    rewrite !round_record_wip.
    rewrite (round_next_conservation (after_rounds (S k) g))
      by now apply shaped_after_rounds.
    rewrite <- (after_rounds_succ k).
    rewrite release_rate_after_rounds. reflexivity.
Qed.

Lemma wip_recurrence_witness :
  exists s g', simulate 3 demo_game = (Ok s, g') /\
    forall r, rounds s !! 0%nat = Some r -> wip r = 9 + 4 - throughput r.
Proof.
  destruct (wip_recurrence demo_game 3) as (s & g' & E & H0 & _).
  - exact (wf_shaped _ demo_game_wf).
  - lia.
  - exists s, g'. split; [exact E | exact H0].
Defined.
